(** * Sorting algorithms comparison: a verified model of [task.py]

    The Python program is embedded shallowly.  Python lists are mutable
    objects: they live in a store (a finite map from references to list
    contents) and every function is a state transformer over that store, so
    that aliasing, in-place mutation and copying are visible in the model.
    [while] loops and the recursion of [merge_sort] are driven by a fuel
    counter; termination is then a theorem (enough fuel always yields a
    result), not an assumption. *)

From Stdlib Require Import ZArith Lia Sorted Permutation Floats.
From stdpp Require Import base option list gmap strings.

Local Open Scope Z_scope.

(** * The program *)

(** ** Outcomes and the state monad *)

(** The exceptions the modelled code can raise.  [InvalidRef] is reached only
    when a reference that was never allocated is dereferenced, which no
    Python program can do; it keeps the store operations total. *)
Inductive exn : Type :=
  | IndexError
  | ZeroDivisionError
  | ValueError
  | OverflowError
  | InvalidRef.

(** The outcome of running a piece of code from a state: a value and the new
    state, an exception together with the state at the point where it was
    raised (an exception does not undo mutation), or fuel exhaustion. *)
Inductive res (S T : Type) : Type :=
  | Ok (x : T) (s : S)
  | Raise (e : exn) (s : S)
  | OutOfFuel.
Arguments Ok {S T} x s.
Arguments Raise {S T} e s.
Arguments OutOfFuel {S T}.

Definition M (S T : Type) : Type := S -> res S T.

Definition ret {S T} (x : T) : M S T := fun s => Ok x s.

Definition raise {S T} (e : exn) : M S T := fun s => Raise e s.

Definition bind {S T U} (m : M S T) (k : T -> M S U) : M S U :=
  fun s =>
    match m s with
    | Ok x s' => k x s'
    | Raise e s' => Raise e s'
    | OutOfFuel => OutOfFuel
    end.

Notation "'let*' x ':=' c1 'in' c2" := (bind c1 (fun x => c2))
  (at level 10, x name, c1 at level 100, c2 at level 200, only parsing).

(** The state in which an outcome leaves the program, when there is one. *)
Definition final_state {S T} (o : res S T) : option S :=
  match o with
  | Ok _ s => Some s
  | Raise _ s => Some s
  | OutOfFuel => None
  end.

(** [while cond: body], with the loop-carried local variables as [st]. *)
Fixpoint while {S St} (fuel : nat) (cond : St -> M S bool) (body : St -> M S St)
    (st : St) : M S St :=
  match fuel with
  | O => fun _ => OutOfFuel
  | Datatypes.S fuel' =>
      let* b := cond st in
      if b : bool then let* st' := body st in while fuel' cond body st'
      else ret st
  end.

(** [for i in xs: body i], over an already computed sequence of indices. *)
Fixpoint for_each {S I} (xs : list I) (body : I -> M S unit) : M S unit :=
  match xs with
  | [] => ret tt
  | i :: xs' => let* _ := body i in for_each xs' body
  end.

(** [range(lo, hi)] *)
Definition py_range (lo hi : Z) : list Z :=
  (fun k => lo + Z.of_nat k) <$> seq 0 (Z.to_nat (hi - lo)).

(** ** The store of list objects *)

Abbreviation loc := nat (only parsing).
Abbreviation heap A := (gmap nat (list A)) (only parsing).

(** Python indexing: [0 <= i < n] addresses from the front, [-n <= i < 0]
    from the back, anything else is an [IndexError]. *)
Definition index_of (n : nat) (i : Z) : option nat :=
  if (0 <=? i) && (i <? Z.of_nat n) then Some (Z.to_nat i)
  else if (- Z.of_nat n <=? i) && (i <? 0) then Some (Z.to_nat (i + Z.of_nat n))
  else None.

(** Bound of a slice: negative bounds count from the back, and every bound is
    clamped to the list. *)
Definition slice_bound (n : nat) (i : Z) : nat :=
  if i <? 0 then Z.to_nat (Z.max 0 (i + Z.of_nat n))
  else Z.to_nat (Z.min i (Z.of_nat n)).

Section ListObjects.
Context {A : Type}.

(** [len(r)] *)
Definition py_len (r : loc) : M (heap A) Z := fun h =>
  match h !! r with
  | Some l => Ok (Z.of_nat (length l)) h
  | None => Raise InvalidRef h
  end.

(** [r[i]] *)
Definition py_getitem (r : loc) (i : Z) : M (heap A) A := fun h =>
  match h !! r with
  | Some l =>
      match index_of (length l) i ≫= (l !!.) with
      | Some x => Ok x h
      | None => Raise IndexError h
      end
  | None => Raise InvalidRef h
  end.

(** [r[i] = x] *)
Definition py_setitem (r : loc) (i : Z) (x : A) : M (heap A) unit := fun h =>
  match h !! r with
  | Some l =>
      match index_of (length l) i with
      | Some k => Ok tt (<[r := <[k := x]> l]> h)
      | None => Raise IndexError h
      end
  | None => Raise InvalidRef h
  end.

(** [r.append(x)] *)
Definition py_append (r : loc) (x : A) : M (heap A) unit := fun h =>
  match h !! r with
  | Some l => Ok tt (<[r := l ++ [x]]> h)
  | None => Raise InvalidRef h
  end.

(** A new list object holding [l]: a list display, a comprehension. *)
Definition py_new (l : list A) : M (heap A) loc := fun h =>
  let r := fresh (dom h) in Ok r (<[r := l]> h).

(** [r[lo:hi]], either bound possibly omitted: a new list object. *)
Definition py_slice (r : loc) (lo hi : option Z) : M (heap A) loc := fun h =>
  match h !! r with
  | Some l =>
      let a := from_option (slice_bound (length l)) 0%nat lo in
      let b := from_option (slice_bound (length l)) (length l) hi in
      py_new (take (b - a) (drop a l)) h
  | None => Raise InvalidRef h
  end.

(** [r.copy()] *)
Definition py_copy (r : loc) : M (heap A) loc := fun h =>
  match h !! r with
  | Some l => py_new l h
  | None => Raise InvalidRef h
  end.
End ListObjects.

(** ** Orderable values *)

(** The comparison protocol the sorts rely on: [x < y] and [x <= y]. *)
Class PyOrd (A : Type) : Type := {
  lt_py : A -> A -> bool;
  le_py : A -> A -> bool
}.

(** ** The sorting functions *)

Section Sorts.
Context {A : Type} `{PyOrd A}.

(** *** [insertion_sort] (task.py, lines 9-18) *)

(** Line 14, the loop test [j >= 0 and key < lst[j]]; [and] does not
    evaluate [lst[j]] when [j < 0]. *)
Definition shift_cond (key : A) (lst : loc) (j : Z) : M (heap A) bool :=
  if 0 <=? j then let* x := py_getitem lst j in ret (lt_py key x)
  else ret false.

(** Lines 15-16, the loop body [lst[j + 1] = lst[j]; j -= 1]. *)
Definition shift_body (lst : loc) (j : Z) : M (heap A) Z :=
  let* x := py_getitem lst j in
  let* _ := py_setitem lst (j + 1) x in
  ret (j - 1).

(** Lines 12-17, one iteration of the [for] loop. *)
Definition insert_at (fuel : nat) (lst : loc) (i : Z) : M (heap A) unit :=
  let* key := py_getitem lst i in
  let* j := while fuel (shift_cond key lst) (shift_body lst) (i - 1) in
  py_setitem lst (j + 1) key.

Definition insertion_sort (fuel : nat) (lst : loc) : M (heap A) loc :=
  let* n := py_len lst in
  let* _ := for_each (py_range 1 n) (insert_at fuel lst) in
  ret lst.

(** *** [merge] (task.py, lines 21-43) *)

(** Line 27, [left_index < len(left) and right_index < len(right)]. *)
Definition merge_cond (left right : loc) (st : Z * Z) : M (heap A) bool :=
  let '(left_index, right_index) := st in
  let* nl := py_len left in
  if left_index <? nl then
    let* nr := py_len right in ret (right_index <? nr)
  else ret false.

(** Lines 28-33. *)
Definition merge_body (left right merged : loc) (st : Z * Z)
    : M (heap A) (Z * Z) :=
  let '(left_index, right_index) := st in
  let* x := py_getitem left left_index in
  let* y := py_getitem right right_index in
  if le_py x y then
    let* x' := py_getitem left left_index in
    let* _ := py_append merged x' in
    ret (left_index + 1, right_index)
  else
    let* y' := py_getitem right right_index in
    let* _ := py_append merged y' in
    ret (left_index, right_index + 1).

(** Lines 35 and 39, [index < len(src)]. *)
Definition drain_cond (src : loc) (index : Z) : M (heap A) bool :=
  let* n := py_len src in ret (index <? n).

(** Lines 36-37 and 40-41, [merged.append(src[index]); index += 1]. *)
Definition drain_body (src merged : loc) (index : Z) : M (heap A) Z :=
  let* x := py_getitem src index in
  let* _ := py_append merged x in
  ret (index + 1).

(** Lines 23-33: the new list and the main loop, up to the point where one
    side is exhausted. *)
Definition merge_main (fuel : nat) (left right : loc)
    : M (heap A) (loc * (Z * Z)) :=
  let* merged := py_new [] in
  let* st := while fuel (merge_cond left right)
               (merge_body left right merged) (0, 0) in
  ret (merged, st).

Definition merge (fuel : nat) (left right : loc) : M (heap A) loc :=
  let* main := merge_main fuel left right in
  let '(merged, (left_index, right_index)) := main in
  let* _ :=
    while fuel (drain_cond left) (drain_body left merged) left_index in
  let* _ :=
    while fuel (drain_cond right) (drain_body right merged) right_index in
  ret merged.

(** *** [merge_sort] (task.py, lines 46-54) *)

(** Lines 51-53: [mid = len(arr) // 2], then the two slices. *)
Definition split_halves (arr : loc) : M (heap A) (loc * loc) :=
  let* n := py_len arr in
  let mid := n `div` 2 in
  let* left_half := py_slice arr None (Some mid) in
  let* right_half := py_slice arr (Some mid) None in
  ret (left_half, right_half).

Fixpoint merge_sort (fuel : nat) (arr : loc) : M (heap A) loc :=
  match fuel with
  | O => fun _ => OutOfFuel
  | Datatypes.S fuel' =>
      let* n := py_len arr in
      if n <=? 1 then ret arr
      else
        let* halves := split_halves arr in
        let '(left_half, right_half) := halves in
        let* sorted_left := merge_sort fuel' left_half in
        let* sorted_right := merge_sort fuel' right_half in
        merge fuel sorted_left sorted_right
  end.
End Sorts.

(** Integers, compared as Python compares them. *)
#[export] Instance Z_PyOrd : PyOrd Z := {| lt_py := Z.ltb; le_py := Z.leb |}.

(** Records compared by an integer key: the first component. *)
Definition keyed : Type := Z * string.
#[export] Instance keyed_PyOrd : PyOrd keyed :=
  {| lt_py x y := fst x <? fst y; le_py x y := fst x <=? fst y |}.

(** ** Python numbers *)

(** The numbers the plotting code handles: integers of any size and
    binary64 floats. *)
Inductive pynum : Type :=
  | PyInt (z : Z)
  | PyFloat (f : float).

(** Conversion of an integer to the nearest float (ties to even). *)
Definition float_of_int (z : Z) : float :=
  SF2Prim (binary_normalize prec emax z 0 false).

(** Arithmetic does not touch the store: an operation either yields a
    value or raises. *)
Definition checked (T : Type) : Type := (exn + T)%type.

Definition run_checked {S T} (c : checked T) : M S T :=
  match c with
  | inl e => raise e
  | inr x => ret x
  end.

(** [float(z)]: an integer too large for a float raises [OverflowError]. *)
Definition int_to_float (z : Z) : checked float :=
  let f := float_of_int z in
  if PrimFloat.is_infinity f then inl OverflowError else inr f.

Definition as_float (v : pynum) : checked float :=
  match v with
  | PyInt z => int_to_float z
  | PyFloat f => inr f
  end.

(** [v == 0] *)
Definition py_is_zero (v : pynum) : bool :=
  match v with
  | PyInt z => z =? 0
  | PyFloat f => PrimFloat.eqb f PrimFloat.zero
  end.

(** [x / y] on two integers: the correctly rounded quotient. *)
Definition int_truediv (x y : Z) : checked pynum :=
  if y =? 0 then inl ZeroDivisionError
  else
    let negate := xorb (x <? 0) (y <? 0) in
    if x =? 0 then inr (PyFloat (SF2Prim (S754_zero negate)))
    else
      let '(q, e, l) := SFdiv_core_binary prec emax (Z.abs x) 0 (Z.abs y) 0 in
      let f := SF2Prim (binary_round_aux prec emax negate q e l) in
      if PrimFloat.is_infinity f then inl OverflowError
      else inr (PyFloat f).

(** [x / y] on two floats. *)
Definition float_truediv (x y : float) : checked pynum :=
  if PrimFloat.eqb y PrimFloat.zero then inl ZeroDivisionError
  else inr (PyFloat (PrimFloat.div x y)).

(** [a / b]: two integers are divided exactly and rounded once; otherwise
    both operands are converted to floats first. *)
Definition py_truediv (a b : pynum) : checked pynum :=
  match a, b with
  | PyInt x, PyInt y => int_truediv x y
  | _, _ =>
      match as_float a with
      | inl e => inl e
      | inr x =>
          match as_float b with
          | inl e => inl e
          | inr y => float_truediv x y
          end
      end
  end.

(** [a * b] *)
Definition py_mul (a b : pynum) : checked pynum :=
  match a, b with
  | PyInt x, PyInt y => inr (PyInt (x * y))
  | _, _ =>
      match as_float a with
      | inl e => inl e
      | inr x =>
          match as_float b with
          | inl e => inl e
          | inr y => inr (PyFloat (PrimFloat.mul x y))
          end
      end
  end.

(** Exact comparison of a float with an integer. *)
Definition float_eq_int (f : float) (z : Z) : bool :=
  match Prim2SF f with
  | S754_zero _ => z =? 0
  | S754_finite s m e =>
      let mz := if s then Z.neg m else Z.pos m in
      if 0 <=? e then z =? mz * 2 ^ e else z * 2 ^ (- e) =? mz
  | _ => false
  end.

(** [a == b] *)
Definition py_eq (a b : pynum) : bool :=
  match a, b with
  | PyInt x, PyInt y => x =? y
  | PyFloat x, PyFloat y => PrimFloat.eqb x y
  | PyFloat x, PyInt y => float_eq_int x y
  | PyInt x, PyFloat y => float_eq_int y x
  end.

(** ** [_scale_theoretical_curve] (task.py, lines 106-118) *)

(** The elements of a list in order, as a [for] clause reads them. *)
Definition py_iter {A} (r : loc) : M (heap A) (list A) := fun h =>
  match h !! r with
  | Some l => Ok l h
  | None => Raise InvalidRef h
  end.

Fixpoint map_M {S T U} (f : T -> M S U) (xs : list T) : M S (list U) :=
  match xs with
  | [] => ret []
  | x :: xs' =>
      let* y := f x in
      let* ys := map_M f xs' in
      ret (y :: ys)
  end.

Definition _scale_theoretical_curve (values reference : loc)
    : M (heap pynum) loc :=
  let* nv := py_len values in
  if nv =? 0 then ret values
  else
    let* nr := py_len reference in
    if nr =? 0 then ret values
    else
      let* last := py_getitem values (-1) in
      if py_is_zero last then ret values
      else
        let* ref_last := py_getitem reference (-1) in
        let* val_last := py_getitem values (-1) in
        let* factor := run_checked (py_truediv ref_last val_last) in
        let* elements := py_iter values in
        let* scaled :=
          map_M (fun value => run_checked (py_mul value factor)) elements in
        py_new scaled.

(** ** The benchmark runner *)

(** What the program takes from its host: a wall clock, a seedable
    pseudorandom generator and a built-in sort.  [host_timer] reads the
    clock; successive readings are whatever the oracle [host_clock] yields.
    [host_randint lo hi] draws one integer, or fails on an empty range. *)
Class Host : Type := {
  host_clock : Type;
  host_timer : host_clock -> float * host_clock;
  host_rng : Type;
  host_seed : Z -> host_rng;
  host_randint : Z -> Z -> host_rng -> option (Z * host_rng);
  host_sort : list Z -> list Z
}.

(** A function object: its name and its code. *)
Record fn_obj (A : Type) : Type := {
  fn_name : string;
  fn_call : loc -> M (heap A) loc
}.
Arguments fn_name {A} f.
Arguments fn_call {A} f.

(** The trace of a run.  It is ghost state: it records which datasets were
    generated, with which argument every benchmarked function was called
    and what the clock read, and no modelled code reads it. *)
Inductive event (A : Type) : Type :=
  | EvDataset (data : loc) (contents : list A)
  | EvCall (name : string) (arg : loc) (contents : list A)
  | EvTimer (reading : float).
Arguments EvDataset {A} data contents.
Arguments EvCall {A} name arg contents.
Arguments EvTimer {A} reading.

Record world `{Host} (A : Type) : Type := {
  w_heap : heap A;
  w_clock : host_clock;
  w_trace : list (event A)
}.
Arguments w_heap {_ A} w.
Arguments w_clock {_ A} w.
Arguments w_trace {_ A} w.
Arguments Build_world {_ A} w_heap w_clock w_trace.

Section Benchmark.
Context `{Host} {A : Type}.

Definition set_heap (w : world A) (h : heap A) : world A :=
  Build_world h (w_clock w) (w_trace w).

(** Code that only uses the store, run in the world. *)
Definition lift {T} (m : M (heap A) T) : M (world A) T := fun w =>
  match m (w_heap w) with
  | Ok x h => Ok x (set_heap w h)
  | Raise e h => Raise e (set_heap w h)
  | OutOfFuel => OutOfFuel
  end.

Definition read_timer : M (world A) float := fun w =>
  let '(t, c) := host_timer (w_clock w) in
  Ok t (Build_world (w_heap w) c (w_trace w ++ [EvTimer t])).

Definition log_event (ev : world A -> event A) : M (world A) unit := fun w =>
  Ok tt (Build_world (w_heap w) (w_clock w) (w_trace w ++ [ev w])).

Fixpoint repeat_stmt (n : nat) (stmt : M (world A) unit) : M (world A) unit :=
  match n with
  | O => ret tt
  | Datatypes.S n' => let* _ := stmt in repeat_stmt n' stmt
  end.

(** [timeit.timeit(stmt, number=number)]: the time between two readings of
    the clock, around [number] executions of [stmt]. *)
Definition timeit (stmt : M (world A) unit) (number : Z) : M (world A) float :=
  let* t0 := read_timer in
  let* _ := repeat_stmt (Z.to_nat number) stmt in
  let* t1 := read_timer in
  ret (PrimFloat.sub t1 t0).

(** Calling a function object, with the call recorded in the trace. *)
Definition call (function : fn_obj A) (arg : loc) : M (world A) loc :=
  let* _ := log_event (fun w =>
              EvCall (fn_name function) arg (default [] (w_heap w !! arg))) in
  lift (fn_call function arg).

(** Line 70, the timed statement [lambda: function(data.copy())]. *)
Definition benchmark_stmt (function : fn_obj A) (data : loc)
    : M (world A) unit :=
  let* fresh_copy := lift (py_copy data) in
  let* _ := call function fresh_copy in
  ret tt.

(** [benchmark] (task.py, lines 68-70) *)
Definition benchmark (function : fn_obj A) (data : loc) (repeats : Z)
    : M (world A) float :=
  timeit (benchmark_stmt function data) repeats.
End Benchmark.

(** ** The comparison driver *)

Section Driver.
Context `{Host}.

(** [python_sort] (task.py, lines 57-60): [lst.sort()], in place. *)
Definition python_sort (lst : loc) : M (heap Z) loc := fun h =>
  match h !! lst with
  | Some l => Ok lst (<[lst := host_sort l]> h)
  | None => Raise InvalidRef h
  end.

(** [python_sorted] (task.py, lines 63-65): [sorted(lst)], a new list. *)
Definition python_sorted (lst : loc) : M (heap Z) loc :=
  let* elements := py_iter lst in
  py_new (host_sort elements).

Definition insertion_sort_fn (fuel : nat) : fn_obj Z :=
  {| fn_name := "insertion_sort"; fn_call := insertion_sort fuel |}.
Definition merge_sort_fn (fuel : nat) : fn_obj Z :=
  {| fn_name := "merge_sort"; fn_call := merge_sort fuel |}.
Definition python_sort_fn : fn_obj Z :=
  {| fn_name := "python_sort"; fn_call := python_sort |}.
Definition python_sorted_fn : fn_obj Z :=
  {| fn_name := "python_sorted"; fn_call := python_sorted |}.

(** Line 93, the comprehension that calls [rng.randint] on the unpacked
    [value_range] once per element of [range(size)]; [n] is the number of
    iterations. *)
Fixpoint draw {S} (n : nat) (value_range : Z * Z) (rng : host_rng)
    : M S (list Z * host_rng) :=
  match n with
  | O => ret ([], rng)
  | Datatypes.S n' =>
      match host_randint (fst value_range) (snd value_range) rng with
      | Some (v, rng') =>
          let* rest := draw n' value_range rng' in
          ret (v :: fst rest, snd rest)
      | None => raise ValueError
      end
  end.

(** A Result Entry: the dictionary built at lines 94-100. *)
Definition result_entry (size : Z)
    (t_insertion t_merge t_list_sort t_sorted : float) : gmap string pynum :=
  <["sorted" := PyFloat t_sorted]>
    (<["list_sort" := PyFloat t_list_sort]>
       (<["merge_sort" := PyFloat t_merge]>
          (<["insertion_sort" := PyFloat t_insertion]>
             (<["size" := PyInt size]> ∅)))).

(** Lines 93-101, the body of the loop over the sizes. *)
Definition compare_one (fuel : nat) (repeats : Z) (value_range : Z * Z)
    (size : Z) (rng : host_rng)
    : M (world Z) (gmap string pynum * host_rng) :=
  let* drawn := draw (Z.to_nat size) value_range rng in
  let* base_data := lift (py_new (fst drawn)) in
  let* _ := log_event (fun _ => EvDataset base_data (fst drawn)) in
  let* t_insertion := benchmark (insertion_sort_fn fuel) base_data repeats in
  let* t_merge := benchmark (merge_sort_fn fuel) base_data repeats in
  let* t_list_sort := benchmark python_sort_fn base_data repeats in
  let* t_sorted := benchmark python_sorted_fn base_data repeats in
  ret (result_entry size t_insertion t_merge t_list_sort t_sorted, snd drawn).

(** Lines 92-101, the loop; the generator is threaded through it. *)
Fixpoint compare_loop (fuel : nat) (repeats : Z) (value_range : Z * Z)
    (list_sizes : list Z) (rng : host_rng)
    : M (world Z) (list (gmap string pynum)) :=
  match list_sizes with
  | [] => ret []
  | size :: list_sizes' =>
      let* one := compare_one fuel repeats value_range size rng in
      let* results :=
        compare_loop fuel repeats value_range list_sizes' (snd one) in
      ret (fst one :: results)
  end.

(** [compare_sorting_algorithms] (task.py, lines 73-103).  An argument that
    the caller leaves out is [None]. *)
Definition compare_sorting_algorithms (fuel : nat)
    (list_sizes : option (list Z)) (repeats : option Z) (seed : option Z)
    (value_range : option (Z * Z))
    : M (world Z) (list (gmap string pynum)) :=
  let repeats := default 5 repeats in
  let seed := default 42 seed in
  let value_range := default (-10000, 10000) value_range in
  let list_sizes :=
    match list_sizes with
    | None => [10; 100; 1000; 5000]
    | Some sizes => sizes
    end in
  let rng := host_seed seed in
  compare_loop fuel repeats value_range list_sizes rng.
End Driver.

(** * The vocabulary of the specification *)

(** ** Orderable values and the host's contract *)

(** The values are orderable when [<=] is a total preorder and [<] is its
    strict part.  Distinct values may compare equal (records compared by a
    key), which is what makes stability observable. *)
Class PyOrdLaws (A : Type) `{PyOrd A} : Prop := {
  le_py_total : forall x y : A, le_py x y = true \/ le_py y x = true;
  le_py_trans : forall x y z : A,
    le_py x y = true -> le_py y z = true -> le_py x z = true;
  lt_py_le_py : forall x y : A, lt_py x y = negb (le_py y x)
}.


(** ** Sorted, permuted, stable *)

Section SortVocabulary.
Context {A : Type} `{PyOrd A}.
Implicit Types (l la lb pre rest : list A) (key : A).

(** [inserted key pre pre']: [key] was placed in [pre] just before the
    longest suffix of elements strictly greater than it. *)
Definition inserted key pre pre' : Prop :=
  exists a b,
    pre = a ++ b /\ pre' = a ++ key :: b /\
    Forall (fun x => lt_py key x = true) b /\
    (forall a' y, a = a' ++ [y] -> lt_py key y = false).

(** The successive prefixes built by the outer loop. *)
Inductive insertion_steps : list A -> list A -> list A -> Prop :=
  | insertion_done pre : insertion_steps pre [] pre
  | insertion_next pre key rest pre1 pre' :
      inserted key pre pre1 ->
      insertion_steps pre1 rest pre' ->
      insertion_steps pre (key :: rest) pre'.

(** The list the sort leaves in place of [l]. *)
Definition insertion_sorted l l' : Prop :=
  match l with
  | [] => l' = []
  | x :: rest => insertion_steps [x] rest l'
  end.

(** The contents of the list [merge] builds from the contents of its two
    arguments. *)
Fixpoint merge_list (la : list A) : list A -> list A :=
  fix merge_right (lb : list A) : list A :=
    match la, lb with
    | [], _ => lb
    | _, [] => la
    | x :: la', y :: lb' =>
        if le_py x y then x :: merge_list la' lb
        else y :: merge_right lb'
    end.

(** The lists [merge_sort] can return for [l]: [l] itself when it has at
    most one element, the merge of its sorted halves otherwise. *)
Inductive merge_sorted : list A -> list A -> Prop :=
  | merge_sorted_short l : (length l <= 1)%nat -> merge_sorted l l
  | merge_sorted_split l l1 l2 :
      (1 < length l)%nat ->
      merge_sorted (take (length l / 2) l) l1 ->
      merge_sorted (drop (length l / 2) l) l2 ->
      merge_sorted l (merge_list l1 l2).

(** [x <= y] as a relation. *)
Definition le_rel (x y : A) : Prop := le_py x y = true.

(** Non-decreasing order. *)
Definition non_decreasing (l : list A) : Prop := Sorted le_rel l.

(** [x] compares equal to [k]. *)
Definition same_key (k x : A) : bool := le_py k x && le_py x k.

(** [l'] keeps the elements that compare equal in the order they have in
    [l]: for every key, the elements equal to it form the same sequence. *)
Definition stable (l l' : list A) : Prop :=
  forall k, List.filter (same_key k) l' = List.filter (same_key k) l.

End SortVocabulary.

(** ** Frames and traces of the benchmark runner *)

Section BenchmarkVocabulary.
Context `{Host} {A : Type}.
Implicit Types (w : world A) (l : list A) (f : fn_obj A).

(** A function touches only its argument, on lists with contents [l], when
    every list that exists at the call and is not the argument is left as it
    was, whether the call returns or raises. *)
Definition touches_only_argument (code : loc -> M (heap A) loc) l : Prop :=
  forall (h : heap A) c h',
    h !! c = Some l ->
    final_state (code c h) = Some h' ->
    forall x lx, x <> c -> h !! x = Some lx -> h' !! x = Some lx.

(** A function returns, on lists with contents [l]. *)
Definition returns_on (code : loc -> M (heap A) loc) l : Prop :=
  forall (h : heap A) c, h !! c = Some l -> exists r h', code c h = Ok r h'.

(** A recorded call of [f] on a list that did not exist in [h0] and holds
    [l]: a fresh copy. *)
Definition call_on_copy f l (h0 : heap A) (ev : event A) : Prop :=
  exists c, ev = EvCall (fn_name f) c l /\ h0 !! c = None.

(** What a piece of benchmarking code may do to the world it started in:
    keep every existing list as it is, and extend the trace by at most [n]
    calls, each on a fresh copy. *)
Definition benchmark_frame f l (n : nat) w w' : Prop :=
  w_heap w ⊆ w_heap w' /\
  exists calls,
    w_trace w' = w_trace w ++ calls /\
    Forall (call_on_copy f l (w_heap w)) calls /\
    (length calls <= n)%nat.

(** The same, with exactly [n] calls. *)
Definition benchmark_done f l (n : nat) w w' : Prop :=
  w_heap w ⊆ w_heap w' /\
  exists calls,
    w_trace w' = w_trace w ++ calls /\
    Forall (call_on_copy f l (w_heap w)) calls /\
    length calls = n.

(** The trace of a timed run: a clock reading, the calls, a clock
    reading. *)
Definition timed (t0 : float) (calls : list (event A)) (t1 : float)
    : list (event A) :=
  EvTimer t0 :: calls ++ [EvTimer t1].

(** [benchmark] has returned [t]: every list that existed is as it was, the
    function was called [n] times, each time on a fresh copy, and [t] is the
    difference of the clock readings taken after and before the calls. *)
Definition benchmark_returned f l (n : nat) (t : float) w w' : Prop :=
  w_heap w ⊆ w_heap w' /\
  exists t0 t1 calls,
    t = PrimFloat.sub t1 t0 /\
    w_trace w' = w_trace w ++ timed t0 calls t1 /\
    Forall (call_on_copy f l (w_heap w)) calls /\
    length calls = n.

End BenchmarkVocabulary.

(** ** Datasets, entries and traces of the driver *)

Section DriverVocabulary.
Context `{Host}.
Implicit Types (w : world Z) (d : list Z) (rng : host_rng).

(** [n] successive draws from a generator, with the generator they leave;
    [None] when a draw fails. *)
Fixpoint draw_list (n : nat) (value_range : Z * Z) rng
    : option (list Z * host_rng) :=
  match n with
  | O => Some ([], rng)
  | Datatypes.S n' =>
      match host_randint (fst value_range) (snd value_range) rng with
      | Some (v, rng') =>
          match draw_list n' value_range rng' with
          | Some (vs, rng'') => Some (v :: vs, rng'')
          | None => None
          end
      | None => None
      end
  end.

(** The datasets for a list of sizes, all drawn from one generator. *)
Fixpoint datasets_from rng (value_range : Z * Z) (list_sizes : list Z)
    : option (list (list Z)) :=
  match list_sizes with
  | [] => Some []
  | size :: list_sizes' =>
      match draw_list (Z.to_nat size) value_range rng with
      | Some (d, rng') =>
          match datasets_from rng' value_range list_sizes' with
          | Some ds => Some (d :: ds)
          | None => None
          end
      | None => None
      end
  end.

(** [n] recorded calls of the function called [name], each on a list that
    holds [d] and is not the list [base]. *)
Definition calls_on_copies (name : string) (n : nat) (base : loc) d
    (calls : list (event Z)) : Prop :=
  length calls = n /\
  Forall (fun ev => exists c, ev = EvCall name c d /\ c <> base) calls.

(** One iteration of the driver's loop, for the size [size]: the dataset
    [d] is generated, then each of the four functions in turn is run [n]
    times on copies of it between two readings of the clock, and the entry
    [e] holds the size and, for each function, the difference of its two
    readings. *)
Definition size_trace (n : nat) (size : Z) d (e : gmap string pynum)
    (tr : list (event Z)) : Prop :=
  exists base c1 c2 c3 c4 a1 b1 a2 b2 a3 b3 a4 b4,
    tr = EvDataset base d ::
           timed a1 c1 b1 ++ timed a2 c2 b2 ++
           timed a3 c3 b3 ++ timed a4 c4 b4 /\
    e = result_entry size (PrimFloat.sub b1 a1) (PrimFloat.sub b2 a2)
          (PrimFloat.sub b3 a3) (PrimFloat.sub b4 a4) /\
    calls_on_copies "insertion_sort" n base d c1 /\
    calls_on_copies "merge_sort" n base d c2 /\
    calls_on_copies "python_sort" n base d c3 /\
    calls_on_copies "python_sorted" n base d c4.

(** The whole loop: sizes, datasets, entries and trace, iteration after
    iteration. *)
Inductive run_trace (n : nat)
    : list Z -> list (list Z) -> list (gmap string pynum) ->
      list (event Z) -> Prop :=
  | run_trace_nil : run_trace n [] [] [] []
  | run_trace_cons size sizes d ds e es tr1 tr2 :
      size_trace n size d e tr1 -> run_trace n sizes ds es tr2 ->
      run_trace n (size :: sizes) (d :: ds) (e :: es) (tr1 ++ tr2).

(** The datasets recorded in a trace. *)
Fixpoint trace_datasets (tr : list (event Z)) : list (list Z) :=
  match tr with
  | [] => []
  | EvDataset _ d :: tr' => d :: trace_datasets tr'
  | EvCall _ _ _ :: tr' => trace_datasets tr'
  | EvTimer _ :: tr' => trace_datasets tr'
  end.

(** A Result Entry holds the size and one timing per algorithm, and
    nothing else. *)
Definition holds_size_and_timings (size : Z) (e : gmap string pynum) : Prop :=
  e !! "size" = Some (PyInt size) /\
  (exists t1 t2 t3 t4,
     e !! "insertion_sort" = Some (PyFloat t1) /\
     e !! "merge_sort" = Some (PyFloat t2) /\
     e !! "list_sort" = Some (PyFloat t3) /\
     e !! "sorted" = Some (PyFloat t4)) /\
  dom e = {[ "size"; "insertion_sort"; "merge_sort"; "list_sort"; "sorted" ]}.

End DriverVocabulary.

(** ** The curve scaler *)

Definition is_float (v : pynum) : Prop :=
  match v with
  | PyInt _ => False
  | PyFloat _ => True
  end.

(** The last element of the scaled curve equals the last measured value:
    the endpoint property as the specification words it. *)
Definition scale_matches_endpoint : Prop :=
  forall (h : heap pynum) (values reference : loc) (lv lr : list pynum) v r
         out h' scaled y,
    h !! values = Some lv -> h !! reference = Some lr ->
    length lv = length lr ->
    last lv = Some v -> last lr = Some r -> py_is_zero v = false ->
    _scale_theoretical_curve values reference h = Ok out h' ->
    h' !! out = Some scaled -> last scaled = Some y ->
    py_eq y r = true.

(** ** Concrete inputs *)

(** A host to run the driver on: a clock that advances by three units per
    reading, a linear congruential generator, and a sort by insertion. *)
Fixpoint insert_Z (x : Z) (l : list Z) : list Z :=
  match l with
  | [] => [x]
  | y :: l' => if x <=? y then x :: l else y :: insert_Z x l'
  end.

Definition demo_randint (lo hi seed : Z) : option (Z * Z) :=
  if hi <? lo then None
  else Some (lo + seed `mod` (hi - lo + 1),
             (seed * 1103515245 + 12345) `mod` 2147483648).

Definition demo_host : Host := {|
  host_clock := Z;
  host_timer := fun c => (float_of_int c, c + 3);
  host_rng := Z;
  host_seed := fun seed => seed;
  host_randint := demo_randint;
  host_sort := foldr insert_Z []
|}.

Definition demo_world : world (H := demo_host) Z :=
  Build_world (H := demo_host) ∅ 0 [].

Definition demo_world' : world (H := demo_host) Z :=
  Build_world (H := demo_host) (<[7%nat := [1]]> ∅) 100 [EvDataset 9%nat [0]].

Definition demo_heap : heap Z :=
  <[1%nat := [1; 4]]> (<[0%nat := [3; 1; 2]]> ∅).

Definition sorted_heap : heap Z :=
  <[1%nat := [2; 2; 5]]> (<[0%nat := [1; 2; 4]]> ∅).

Definition keyed_heap : heap keyed :=
  <[0%nat := [(2, "x"); (1, "a"); (1, "b")]]> ∅.

Definition curve_heap : heap pynum :=
  <[1%nat := [PyFloat 1%float; PyFloat 5%float]]>
    (<[0%nat := [PyFloat 4%float; PyFloat 16%float]]> ∅).

(** A theoretical curve [[49]] against a measured time of one second. *)
Definition endpoint_heap : heap pynum :=
  <[1%nat := [PyFloat 1%float]]> (<[0%nat := [PyInt 49]]> ∅).

(** A theoretical curve with a value no float can hold. *)
Definition overflow_heap : heap pynum :=
  <[1%nat := [PyFloat 1%float; PyFloat 2%float]]>
    (<[0%nat := [PyInt (10 ^ 400); PyInt 1]]> ∅).

(** ** Vocabulary of the further properties *)

(** Floats, compared as Python compares them: every comparison with a NaN
    is false, so [<=] is not a total preorder on them. *)
#[export] Instance float_PyOrd : PyOrd float :=
  {| lt_py := PrimFloat.ltb; le_py := PrimFloat.leb |}.

Definition nan_heap : heap float :=
  <[0%nat := [2%float; PrimFloat.nan; 1%float]]> ∅.

(** A function that raises [IndexError] on every list of fewer than eleven
    elements. *)
Definition eleventh_fn : fn_obj Z :=
  {| fn_name := "eleventh";
     fn_call := fun lst => let* _ := py_getitem lst 10 in ret lst |}.

(** A curve and two measured series of different lengths that end in the
    same value. *)
Definition two_reference_heap : heap pynum :=
  <[2%nat := [PyFloat 1%float; PyFloat 2%float; PyFloat 5%float]]>
    (<[1%nat := [PyFloat 5%float]]>
       (<[0%nat := [PyInt 1; PyInt 4]]> ∅)).

(** The dataset objects recorded in a trace, each with its contents. *)
Fixpoint trace_dataset_objects (tr : list (event Z)) : list (loc * list Z) :=
  match tr with
  | [] => []
  | EvDataset base d :: tr' => (base, d) :: trace_dataset_objects tr'
  | EvCall _ _ _ :: tr' => trace_dataset_objects tr'
  | EvTimer _ :: tr' => trace_dataset_objects tr'
  end.

(** * Lemmas *)

(** ** Running the store operations *)

Lemma bind_Ok {S T U} (m : M S T) (k : T -> M S U) s x s' :
  m s = Ok x s' -> bind m k s = k x s'.
Proof. intros E. unfold bind. now rewrite E. Qed.

Lemma index_of_nat (n k : nat) :
  (k < n)%nat -> index_of n (Z.of_nat k) = Some k.
Proof.
  intros Hk. unfold index_of.
  assert (E : (0 <=? Z.of_nat k) && (Z.of_nat k <? Z.of_nat n) = true).
  { apply andb_true_intro; split; [apply Z.leb_le | apply Z.ltb_lt]; lia. }
  rewrite E. now rewrite Nat2Z.id.
Qed.

Lemma index_of_last (n : nat) :
  (0 < n)%nat -> index_of n (-1) = Some (Nat.pred n).
Proof.
  intros Hn. unfold index_of. simpl.
  destruct (Z.leb_spec (- Z.of_nat n) (-1)); [| lia].
  simpl. f_equal. lia.
Qed.

Section RunListObjects.
Context {A : Type}.
Implicit Types (h : heap A) (l : list A) (r : loc).

Lemma py_len_Ok h r l :
  h !! r = Some l -> py_len r h = Ok (Z.of_nat (length l)) h.
Proof. intros E. unfold py_len. now rewrite E. Qed.

Lemma py_getitem_Ok h r l (k : nat) x :
  h !! r = Some l -> l !! k = Some x ->
  py_getitem r (Z.of_nat k) h = Ok x h.
Proof.
  intros E Ek. unfold py_getitem. rewrite E.
  rewrite index_of_nat by (eapply lookup_lt_Some; eauto).
  simpl. now rewrite Ek.
Qed.

Lemma py_setitem_Ok h r l (k : nat) x :
  h !! r = Some l -> (k < length l)%nat ->
  py_setitem r (Z.of_nat k) x h = Ok tt (<[r := <[k := x]> l]> h).
Proof.
  intros E Hk. unfold py_setitem. rewrite E. now rewrite index_of_nat.
Qed.

Lemma py_append_Ok h r l x :
  h !! r = Some l -> py_append r x h = Ok tt (<[r := l ++ [x]]> h).
Proof. intros E. unfold py_append. now rewrite E. Qed.

Lemma fresh_lookup h : h !! fresh (dom h) = None.
Proof. apply not_elem_of_dom, is_fresh. Qed.

Lemma fresh_ne h r l : h !! r = Some l -> fresh (dom h) <> r.
Proof. intros E Heq. rewrite <- Heq, fresh_lookup in E. discriminate. Qed.

Lemma insert_fresh_subseteq h l : h ⊆ <[fresh (dom h) := l]> h.
Proof. apply insert_subseteq, fresh_lookup. Qed.
End RunListObjects.

Lemma while_true {S St} fuel (cond : St -> M S bool) (body : St -> M S St)
    st st' s s1 s2 :
  cond st s = Ok true s1 -> body st s1 = Ok st' s2 ->
  while (Datatypes.S fuel) cond body st s = while fuel cond body st' s2.
Proof. intros Ec Eb. simpl. unfold bind. now rewrite Ec, Eb. Qed.

Lemma while_false {S St} fuel (cond : St -> M S bool) (body : St -> M S St)
    st s s1 :
  cond st s = Ok false s1 ->
  while (Datatypes.S fuel) cond body st s = Ok st s1.
Proof. intros Ec. simpl. unfold bind. now rewrite Ec. Qed.

Ltac run_with H := erewrite bind_Ok by (first [ apply H | eapply H ]; eauto).

(** ** Insertion sort: what the loops compute *)

Section InsertionRuns.
Context {A : Type} `{PyOrd A}.
Implicit Types (h : heap A) (l pre rest : list A) (r : loc) (key : A).

Lemma shift_cond_Ok key h r l (k : nat) x :
  h !! r = Some l -> l !! k = Some x ->
  shift_cond key r (Z.of_nat k) h = Ok (lt_py key x) h.
Proof.
  intros Hr Hk. unfold shift_cond.
  destruct (Z.leb_spec 0 (Z.of_nat k)); [| lia].
  now run_with @py_getitem_Ok.
Qed.

Lemma shift_cond_stop key h r : shift_cond key r (-1) h = Ok false h.
Proof. reflexivity. Qed.

Lemma shift_body_Ok h r l (k : nat) x :
  h !! r = Some l -> l !! k = Some x -> (S k < length l)%nat ->
  shift_body r (Z.of_nat k) h
  = Ok (Z.of_nat k - 1) (<[r := <[S k := x]> l]> h).
Proof.
  intros Hr Hk Hlen. unfold shift_body.
  run_with @py_getitem_Ok.
  replace (Z.of_nat k + 1) with (Z.of_nat (S k)) by lia.
  now run_with @py_setitem_Ok.
Qed.

(** The inner loop, entered with the elements [p2] already shifted one
    slot to the right and a stale copy left at position [length p1]. *)
Lemma shift_loop key r p1 :
  forall stale p2 h fuel,
    h !! r = Some (p1 ++ stale :: p2) ->
    (length p1 < fuel)%nat ->
    exists a b stale',
      p1 = a ++ b /\
      Forall (fun x => lt_py key x = true) b /\
      (forall a' y, a = a' ++ [y] -> lt_py key y = false) /\
      while fuel (shift_cond key r) (shift_body r)
            (Z.of_nat (length p1) - 1) h
      = Ok (Z.of_nat (length a) - 1) (<[r := a ++ stale' :: b ++ p2]> h).
Proof.
  induction p1 as [| x q IH] using rev_ind; intros stale p2 h fuel Hr Hfuel.
  - exists [], [], stale. repeat split; auto.
    + intros a' y E. now destruct a'.
    + destruct fuel as [| fuel]; [simpl in Hfuel; lia |].
      simpl length. simpl Z.sub.
      rewrite (while_false _ _ _ _ _ _ (shift_cond_stop key h r)).
      now rewrite insert_id.
  - rewrite length_app in *. simpl in *.
    destruct fuel as [| fuel]; [lia |].
    rewrite <- app_assoc in Hr.
    assert (Hx : (q ++ [x] ++ stale :: p2) !! length q = Some x).
    { rewrite lookup_app_r by lia. now rewrite Nat.sub_diag. }
    replace (Z.of_nat (length q + 1) - 1) with (Z.of_nat (length q)) by lia.
    pose proof (shift_cond_Ok key h r _ _ _ Hr Hx) as Hc.
    destruct (lt_py key x) eqn:Hlt.
    + assert (Hb : shift_body r (Z.of_nat (length q)) h
                   = Ok (Z.of_nat (length q) - 1)
                        (<[r := q ++ x :: x :: p2]> h)).
      { erewrite shift_body_Ok; [| exact Hr | exact Hx |].
        - do 2 f_equal.
          replace (S (length q)) with (length q + 1)%nat by lia.
          now rewrite insert_app_r.
        - rewrite length_app. simpl. lia. }
      destruct (IH x (x :: p2) (<[r := q ++ x :: x :: p2]> h) fuel)
        as (a & b & stale' & -> & Hfb & Ha & Hrun).
      { now rewrite lookup_insert_eq. }
      { lia. }
      exists a, (b ++ [x]), stale'. repeat split.
      * now rewrite app_assoc.
      * apply Forall_app. split; auto.
      * exact Ha.
      * rewrite (while_true _ _ _ _ _ _ _ _ Hc Hb), Hrun.
        rewrite insert_insert_eq. now rewrite <- !app_assoc.
    + exists (q ++ [x]), [], stale. repeat split; auto.
      * now rewrite app_nil_r.
      * intros a' y E. apply app_inj_tail in E. destruct E as [_ <-]. exact Hlt.
      * rewrite (while_false _ _ _ _ _ _ Hc).
        rewrite length_app. simpl.
        rewrite <- app_assoc. simpl. rewrite insert_id by exact Hr.
        f_equal. lia.
Qed.

(** One iteration of the outer loop. *)
Lemma insert_at_run fuel r pre key rest h :
  h !! r = Some (pre ++ key :: rest) ->
  (length pre < fuel)%nat ->
  exists pre1,
    inserted key pre pre1 /\
    insert_at fuel r (Z.of_nat (length pre)) h
    = Ok tt (<[r := pre1 ++ rest]> h).
Proof.
  intros Hr Hfuel.
  destruct (shift_loop key r pre key rest h fuel Hr Hfuel)
    as (a & b & stale' & -> & Hb & Ha & Hrun).
  exists (a ++ key :: b). split.
  - exists a, b. auto.
  - unfold insert_at.
    erewrite bind_Ok.
    2:{ eapply py_getitem_Ok; [exact Hr |].
        rewrite lookup_app_r by lia. now rewrite Nat.sub_diag. }
    erewrite bind_Ok by exact Hrun.
    replace (Z.of_nat (length a) - 1 + 1) with (Z.of_nat (length a)) by lia.
    rewrite (py_setitem_Ok _ _ (a ++ stale' :: b ++ rest)).
    + rewrite insert_insert_eq. do 2 f_equal.
      replace (length a) with (length a + 0)%nat at 1 by lia.
      rewrite insert_app_r. simpl. now rewrite <- app_assoc.
    + now rewrite lookup_insert_eq.
    + rewrite length_app. simpl. lia.
Qed.

(** The outer loop, from the point where [pre] has been processed. *)
Lemma insertion_loop fuel r rest :
  forall pre h,
    h !! r = Some (pre ++ rest) ->
    (length (pre ++ rest) <= fuel)%nat ->
    exists pre',
      insertion_steps pre rest pre' /\
      for_each (Z.of_nat <$> seq (length pre) (length rest))
               (insert_at fuel r) h
      = Ok tt (<[r := pre']> h).
Proof.
  induction rest as [| key rest IH]; intros pre h Hr Hfuel.
  - exists pre. split; [constructor |].
    simpl. unfold ret. rewrite app_nil_r in Hr. now rewrite insert_id.
  - rewrite length_app in Hfuel. simpl in Hfuel.
    assert (Hpre : (length pre < fuel)%nat) by lia.
    destruct (insert_at_run fuel r pre key rest h Hr Hpre)
      as (pre1 & Hins & Hrun).
    assert (Hlen1 : length pre1 = S (length pre)).
    { destruct Hins as (a & b & -> & -> & _). rewrite !length_app. simpl. lia. }
    destruct (IH pre1 (<[r := pre1 ++ rest]> h)) as (pre' & Hsteps & Hloop).
    { now rewrite lookup_insert_eq. }
    { rewrite length_app. lia. }
    exists pre'. split; [econstructor; eauto |].
    simpl length. simpl seq. rewrite fmap_cons. cbn [for_each].
    erewrite bind_Ok by exact Hrun.
    rewrite Hlen1 in Hloop. rewrite Hloop. now rewrite insert_insert_eq.
Qed.

Lemma py_range_nat (a b : nat) :
  py_range (Z.of_nat a) (Z.of_nat b) = Z.of_nat <$> seq a (b - a).
Proof.
  unfold py_range.
  replace (Z.to_nat (Z.of_nat b - Z.of_nat a)) with (b - a)%nat by lia.
  replace (seq a (b - a)) with (seq (a + 0) (b - a)) by (f_equal; lia).
  rewrite <- fmap_add_seq, <- list_fmap_compose.
  apply list_fmap_ext. intros _ k _. simpl. lia.
Qed.

Lemma insertion_sort_run fuel r l h :
  h !! r = Some l ->
  (length l <= fuel)%nat ->
  exists l',
    insertion_sorted l l' /\
    insertion_sort fuel r h = Ok r (<[r := l']> h).
Proof.
  intros Hr Hfuel. unfold insertion_sort.
  erewrite bind_Ok by (apply py_len_Ok; exact Hr).
  change (py_range 1) with (py_range (Z.of_nat 1)).
  rewrite py_range_nat.
  destruct l as [| x rest].
  - exists []. split; [reflexivity |].
    simpl. unfold bind, ret. simpl. now rewrite insert_id.
  - destruct (insertion_loop fuel r rest [x] h Hr Hfuel)
      as (l' & Hsteps & Hloop).
    exists l'. split; [exact Hsteps |].
    simpl length in *. rewrite Nat.sub_succ, Nat.sub_0_r.
    now erewrite bind_Ok by exact Hloop.
Qed.
End InsertionRuns.

(** ** Merge: what the loops compute *)

Section MergeRuns.
Context {A : Type} `{PyOrd A}.
Implicit Types (h : heap A) (l la lb mc : list A) (a b m r : loc).

Lemma merge_list_nil_r la : merge_list la [] = la.
Proof. now destruct la. Qed.

Lemma merge_list_cons x y la lb :
  merge_list (x :: la) (y :: lb)
  = if le_py x y then x :: merge_list la (y :: lb)
    else y :: merge_list (x :: la) lb.
Proof. reflexivity. Qed.

Lemma merge_cond_Ok h a b la lb (li ri : Z) :
  h !! a = Some la -> h !! b = Some lb ->
  merge_cond a b (li, ri) h
  = Ok ((li <? Z.of_nat (length la)) && (ri <? Z.of_nat (length lb))) h.
Proof.
  intros Ha Hb. unfold merge_cond.
  erewrite bind_Ok by (apply py_len_Ok; exact Ha).
  destruct (li <? Z.of_nat (length la)); [| reflexivity].
  now erewrite bind_Ok by (apply py_len_Ok; exact Hb).
Qed.

Lemma merge_body_Ok h a b m la lb mc (i j : nat) x y :
  h !! a = Some la -> h !! b = Some lb -> h !! m = Some mc ->
  la !! i = Some x -> lb !! j = Some y ->
  merge_body a b m (Z.of_nat i, Z.of_nat j) h
  = if le_py x y
    then Ok (Z.of_nat i + 1, Z.of_nat j) (<[m := mc ++ [x]]> h)
    else Ok (Z.of_nat i, Z.of_nat j + 1) (<[m := mc ++ [y]]> h).
Proof.
  intros Ha Hb Hm Hx Hy. unfold merge_body.
  run_with @py_getitem_Ok. run_with @py_getitem_Ok.
  destruct (le_py x y).
  - run_with @py_getitem_Ok. now run_with @py_append_Ok.
  - run_with @py_getitem_Ok. now run_with @py_append_Ok.
Qed.

(** The main loop, entered with [la1] and [lb1] consumed and [mc] built.
    It stops as soon as one side is exhausted. *)
Lemma merge_loop a b m la2 :
  forall lb2 la1 lb1 mc h fuel,
    h !! a = Some (la1 ++ la2) -> h !! b = Some (lb1 ++ lb2) ->
    h !! m = Some mc -> m <> a -> m <> b ->
    (length la2 + length lb2 < fuel)%nat ->
    exists ca ra cb rb mc1,
      la2 = ca ++ ra /\ lb2 = cb ++ rb /\ (ra = [] \/ rb = []) /\
      mc1 ++ ra ++ rb = merge_list la2 lb2 /\
      while fuel (merge_cond a b) (merge_body a b m)
            (Z.of_nat (length la1), Z.of_nat (length lb1)) h
      = Ok (Z.of_nat (length (la1 ++ ca)), Z.of_nat (length (lb1 ++ cb)))
           (<[m := mc ++ mc1]> h).
Proof.
  induction la2 as [| x la2 IHa].
  - intros lb2 la1 lb1 mc h fuel Ha Hb Hm Hma Hmb Hfuel.
    exists [], [], [], lb2, []. repeat split; auto.
    { now destruct lb2. }
    destruct fuel as [| fuel]; [lia |].
    erewrite while_false.
    2:{ rewrite (merge_cond_Ok _ _ _ _ _ _ _ Ha Hb).
        rewrite app_nil_r, Z.ltb_irrefl. reflexivity. }
    rewrite !app_nil_r. now rewrite insert_id.
  - induction lb2 as [| y lb2 IHb];
      intros la1 lb1 mc h fuel Ha Hb Hm Hma Hmb Hfuel.
    + exists [], (x :: la2), [], [], []. repeat split; auto.
      { simpl. now rewrite app_nil_r. }
      destruct fuel as [| fuel]; [simpl in Hfuel; lia |].
      erewrite while_false.
      2:{ rewrite (merge_cond_Ok _ _ _ _ _ _ _ Ha Hb).
          rewrite (app_nil_r lb1), Z.ltb_irrefl, andb_false_r. reflexivity. }
      rewrite !app_nil_r. now rewrite insert_id.
    + destruct fuel as [| fuel]; [simpl in Hfuel; lia |].
      simpl in Hfuel.
      assert (Hc : merge_cond a b
                     (Z.of_nat (length la1), Z.of_nat (length lb1)) h
                   = Ok true h).
      { rewrite (merge_cond_Ok _ _ _ _ _ _ _ Ha Hb).
        rewrite !length_app. simpl.
        destruct (Z.ltb_spec (Z.of_nat (length la1))
                    (Z.of_nat (length la1 + S (length la2)))); [| lia].
        destruct (Z.ltb_spec (Z.of_nat (length lb1))
                    (Z.of_nat (length lb1 + S (length lb2)))); [| lia].
        reflexivity. }
      assert (Hx : (la1 ++ x :: la2) !! length la1 = Some x).
      { rewrite lookup_app_r by lia. now rewrite Nat.sub_diag. }
      assert (Hy : (lb1 ++ y :: lb2) !! length lb1 = Some y).
      { rewrite lookup_app_r by lia. now rewrite Nat.sub_diag. }
      pose proof (merge_body_Ok _ _ _ _ _ _ _ _ _ _ _ Ha Hb Hm Hx Hy) as Hbody.
      rewrite merge_list_cons.
      destruct (le_py x y) eqn:Hle.
      * destruct (IHa (y :: lb2) (la1 ++ [x]) lb1 (mc ++ [x])
                    (<[m := mc ++ [x]]> h) fuel)
          as (ca & ra & cb & rb & mc1 & Eca & Ecb & Hex & Hmc & Hrun).
        { rewrite lookup_insert_ne by done. now rewrite <- app_assoc. }
        { now rewrite lookup_insert_ne by done. }
        { apply lookup_insert_eq. }
        { done. } { done. } { simpl. lia. }
        exists (x :: ca), ra, cb, rb, (x :: mc1). repeat split; auto.
        -- simpl. now rewrite Eca.
        -- simpl. now rewrite Hmc.
        -- erewrite while_true; [| exact Hc | exact Hbody].
           replace (Z.of_nat (length la1) + 1)
             with (Z.of_nat (length (la1 ++ [x])))
             by (rewrite length_app; simpl; lia).
           rewrite Hrun, insert_insert_eq.
           rewrite <- !app_assoc. reflexivity.
      * destruct (IHb la1 (lb1 ++ [y]) (mc ++ [y])
                    (<[m := mc ++ [y]]> h) fuel)
          as (ca & ra & cb & rb & mc1 & Eca & Ecb & Hex & Hmc & Hrun).
        { now rewrite lookup_insert_ne by done. }
        { rewrite lookup_insert_ne by done. now rewrite <- app_assoc. }
        { apply lookup_insert_eq. }
        { done. } { done. } { simpl. lia. }
        exists ca, ra, (y :: cb), rb, (y :: mc1). repeat split; auto.
        -- simpl. now rewrite Ecb.
        -- simpl. now rewrite Hmc.
        -- erewrite while_true; [| exact Hc | exact Hbody].
           replace (Z.of_nat (length lb1) + 1)
             with (Z.of_nat (length (lb1 ++ [y])))
             by (rewrite length_app; simpl; lia).
           rewrite Hrun, insert_insert_eq.
           rewrite <- !app_assoc. reflexivity.
Qed.

(** The two draining loops. *)
Lemma drain_loop src m s2 :
  forall s1 mc h fuel,
    h !! src = Some (s1 ++ s2) -> h !! m = Some mc -> m <> src ->
    (length s2 < fuel)%nat ->
    while fuel (drain_cond src) (drain_body src m) (Z.of_nat (length s1)) h
    = Ok (Z.of_nat (length (s1 ++ s2))) (<[m := mc ++ s2]> h).
Proof.
  induction s2 as [| x s2 IH]; intros s1 mc h fuel Hs Hm Hne Hfuel.
  - destruct fuel as [| fuel]; [lia |].
    erewrite while_false.
    2:{ unfold drain_cond. erewrite bind_Ok by (apply py_len_Ok; exact Hs).
        rewrite app_nil_r, Z.ltb_irrefl. reflexivity. }
    rewrite !app_nil_r. now rewrite insert_id.
  - destruct fuel as [| fuel]; [simpl in Hfuel; lia |]. simpl in Hfuel.
    erewrite while_true.
    2:{ unfold drain_cond. erewrite bind_Ok by (apply py_len_Ok; exact Hs).
        rewrite length_app. simpl.
        destruct (Z.ltb_spec (Z.of_nat (length s1))
                    (Z.of_nat (length s1 + S (length s2)))); [| lia].
        reflexivity. }
    2:{ unfold drain_body.
        erewrite bind_Ok.
        2:{ eapply py_getitem_Ok; [exact Hs |].
            rewrite lookup_app_r by lia. now rewrite Nat.sub_diag. }
        erewrite bind_Ok by (apply py_append_Ok; exact Hm).
        reflexivity. }
    replace (Z.of_nat (length s1) + 1) with (Z.of_nat (length (s1 ++ [x])))
      by (rewrite length_app; simpl; lia).
    rewrite (IH (s1 ++ [x]) (mc ++ [x])).
    + rewrite insert_insert_eq, <- !app_assoc. reflexivity.
    + rewrite lookup_insert_ne by done. now rewrite <- app_assoc.
    + apply lookup_insert_eq.
    + done.
    + lia.
Qed.

Lemma merge_main_run fuel a b la lb h :
  h !! a = Some la -> h !! b = Some lb ->
  (length la + length lb < fuel)%nat ->
  exists ca ra cb rb mc,
    la = ca ++ ra /\ lb = cb ++ rb /\ (ra = [] \/ rb = []) /\
    mc ++ ra ++ rb = merge_list la lb /\
    merge_main fuel a b h
    = Ok (fresh (dom h), (Z.of_nat (length ca), Z.of_nat (length cb)))
         (<[fresh (dom h) := mc]> h).
Proof.
  intros Ha Hb Hfuel.
  set (m := fresh (dom h)).
  assert (Hma : m <> a) by (eapply fresh_ne; eauto).
  assert (Hmb : m <> b) by (eapply fresh_ne; eauto).
  destruct (merge_loop a b m la lb [] [] [] (<[m := []]> h) fuel)
    as (ca & ra & cb & rb & mc & Eca & Ecb & Hex & Hmc & Hrun).
  { now rewrite lookup_insert_ne by done. }
  { now rewrite lookup_insert_ne by done. }
  { apply lookup_insert_eq. }
  { done. } { done. } { done. }
  exists ca, ra, cb, rb, mc. repeat split; auto.
  unfold merge_main.
  erewrite bind_Ok by reflexivity. fold m.
  erewrite bind_Ok by exact Hrun.
  unfold ret. now rewrite insert_insert_eq.
Qed.

Lemma merge_run fuel a b la lb h :
  h !! a = Some la -> h !! b = Some lb ->
  (length la + length lb < fuel)%nat ->
  merge fuel a b h
  = Ok (fresh (dom h)) (<[fresh (dom h) := merge_list la lb]> h).
Proof.
  intros Ha Hb Hfuel.
  destruct (merge_main_run fuel a b la lb h Ha Hb Hfuel)
    as (ca & ra & cb & rb & mc & Eca & Ecb & Hex & Hmc & Hrun).
  set (m := fresh (dom h)) in *.
  assert (Hma : m <> a) by (eapply fresh_ne; eauto).
  assert (Hmb : m <> b) by (eapply fresh_ne; eauto).
  assert (Hlen : (length ra <= length la /\ length rb <= length lb)%nat).
  { subst la lb. rewrite !length_app. lia. }
  unfold merge. erewrite bind_Ok by exact Hrun.
  cbv beta iota.
  erewrite bind_Ok.
  2:{ apply (drain_loop a m ra ca mc).
      - rewrite lookup_insert_ne by done. now rewrite <- Eca.
      - apply lookup_insert_eq.
      - done.
      - lia. }
  erewrite bind_Ok.
  2:{ apply (drain_loop b m rb cb (mc ++ ra)).
      - rewrite !lookup_insert_ne by done. now rewrite <- Ecb.
      - apply lookup_insert_eq.
      - done.
      - lia. }
  unfold ret. rewrite !insert_insert_eq.
  now rewrite <- app_assoc, Hmc.
Qed.

Lemma merge_list_perm la : forall lb, merge_list la lb ≡ₚ la ++ lb.
Proof.
  induction la as [| x la IHa]; intros lb.
  - now destruct lb.
  - induction lb as [| y lb IHb].
    + now rewrite merge_list_nil_r, app_nil_r.
    + rewrite merge_list_cons. destruct (le_py x y).
      * simpl. now rewrite IHa.
      * rewrite IHb. apply Permutation_middle.
Qed.

Lemma merge_sorted_perm l l' : merge_sorted l l' -> l' ≡ₚ l.
Proof.
  induction 1 as [| l l1 l2 _ _ IH1 _ IH2]; [reflexivity |].
  rewrite merge_list_perm, IH1, IH2, take_drop. reflexivity.
Qed.

Lemma slice_bound_half (n : nat) :
  slice_bound n (Z.of_nat n `div` 2) = (n / 2)%nat.
Proof.
  unfold slice_bound.
  assert (Hdiv : Z.of_nat n `div` 2 = Z.of_nat (n / 2)).
  { now rewrite (Nat2Z.inj_div n 2). }
  rewrite Hdiv.
  destruct (Z.ltb_spec (Z.of_nat (n / 2)) 0); [lia |].
  assert (n / 2 <= n)%nat by (apply Nat.Div0.div_le_upper_bound; lia).
  lia.
Qed.

Lemma split_halves_run r l h :
  h !! r = Some l ->
  let lh := fresh (dom h) in
  let h1 := <[lh := take (length l / 2) l]> h in
  let rh := fresh (dom h1) in
  split_halves r h
  = Ok (lh, rh) (<[rh := drop (length l / 2) l]> h1).
Proof.
  intros Hr lh h1 rh. unfold split_halves.
  erewrite bind_Ok by (apply py_len_Ok; exact Hr).
  cbv zeta.
  assert (Hlh : lh <> r) by (eapply fresh_ne; eauto).
  erewrite bind_Ok.
  2:{ unfold py_slice. rewrite Hr. simpl from_option.
      rewrite slice_bound_half. unfold py_new. fold lh.
      rewrite Nat.sub_0_r, drop_0. fold h1. reflexivity. }
  erewrite bind_Ok.
  2:{ unfold py_slice. subst h1. rewrite lookup_insert_ne by done.
      rewrite Hr. simpl from_option.
      rewrite slice_bound_half. unfold py_new.
      rewrite (take_ge (drop _ l)) by (rewrite length_drop; lia). reflexivity. }
  reflexivity.
Qed.

Lemma merge_sort_run fuel :
  forall r l h,
    h !! r = Some l ->
    (length l < fuel)%nat ->
    exists r' l' h',
      merge_sorted l l' /\
      merge_sort fuel r h = Ok r' h' /\
      h' !! r' = Some l' /\
      h ⊆ h' /\
      ((length l <= 1)%nat -> r' = r /\ h' = h) /\
      ((1 < length l)%nat -> h !! r' = None).
Proof.
  induction fuel as [| fuel IH]; intros r l h Hr Hfuel; [lia |].
  cbn [merge_sort].
  erewrite bind_Ok by (apply py_len_Ok; exact Hr).
  destruct (Z.leb_spec (Z.of_nat (length l)) 1) as [Hshort | Hlong].
  - exists r, l, h. repeat split; auto.
    + constructor. lia.
    + lia.
  - pose proof (split_halves_run r l h Hr) as Hsplit. simpl in Hsplit.
    set (lh := fresh (dom h)) in *.
    set (h1 := <[lh := take (length l / 2) l]> h) in *.
    set (rh := fresh (dom h1)) in *.
    set (h2 := <[rh := drop (length l / 2) l]> h1) in *.
    erewrite bind_Ok by exact Hsplit.
    assert (Hhalf : (0 < length l / 2 < length l)%nat).
    { split.
      - apply Nat.div_str_pos. lia.
      - apply Nat.div_lt; lia. }
    assert (Hh1 : h ⊆ h1) by apply insert_fresh_subseteq.
    assert (Hh2 : h1 ⊆ h2) by apply insert_fresh_subseteq.
    assert (Hrh : rh <> lh).
    { eapply fresh_ne. subst h1. apply lookup_insert_eq. }
    destruct (IH lh (take (length l / 2) l) h2)
      as (r1 & l1 & h3 & Hs1 & Hrun1 & Hr1 & Hh3 & _ & _).
    { subst h2 h1. rewrite lookup_insert_ne by done. apply lookup_insert_eq. }
    { rewrite length_take. lia. }
    destruct (IH rh (drop (length l / 2) l) h3)
      as (r2 & l2 & h4 & Hs2 & Hrun2 & Hr2 & Hh4 & _ & _).
    { eapply lookup_weaken; [| exact Hh3]. subst h2. apply lookup_insert_eq. }
    { rewrite length_drop. lia. }
    erewrite bind_Ok by exact Hrun1.
    erewrite bind_Ok by exact Hrun2.
    pose proof (Permutation_length (merge_sorted_perm _ _ Hs1)) as Hlen1.
    pose proof (Permutation_length (merge_sorted_perm _ _ Hs2)) as Hlen2.
    rewrite length_take in Hlen1. rewrite length_drop in Hlen2.
    assert (Hr1' : h4 !! r1 = Some l1) by (eapply lookup_weaken; eauto).
    rewrite (merge_run _ _ _ l1 l2) by (auto; lia).
    exists (fresh (dom h4)), (merge_list l1 l2),
           (<[fresh (dom h4) := merge_list l1 l2]> h4).
    assert (Hh4' : h ⊆ h4) by (do 3 (etrans; [eassumption |]); done).
    repeat split.
    + constructor; auto. lia.
    + apply lookup_insert_eq.
    + etrans; [exact Hh4' | apply insert_fresh_subseteq].
    + lia.
    + lia.
    + intros _. destruct (h !! fresh (dom h4)) eqn:E; [| done].
      eapply lookup_weaken in E; [| exact Hh4'].
      rewrite fresh_lookup in E. discriminate.
Qed.
End MergeRuns.

(** ** Order, permutation and stability of the computed lists *)

Section Specification.
Context {A : Type} `{PyOrd A}.

Lemma filter_all_true (f : A -> bool) (l : list A) :
  Forall (fun x => f x = true) l -> List.filter f l = l.
Proof.
  induction 1 as [| x l Hx _ IH]; simpl; [reflexivity |].
  now rewrite Hx, IH.
Qed.

(** When all the elements compare equal, a stable rearrangement changes
    nothing. *)
Lemma stable_same_key (k : A) (l l' : list A) :
  Forall (fun x => same_key k x = true) l ->
  l' ≡ₚ l -> stable l l' -> l' = l.
Proof.
  intros Hall Hp Hst.
  assert (Hall' : Forall (fun x => same_key k x = true) l')
    by (now rewrite Hp).
  rewrite <- (filter_all_true _ _ Hall), <- (filter_all_true _ _ Hall').
  apply Hst.
Qed.

Lemma inserted_perm key (pre pre' : list A) :
  inserted key pre pre' -> pre' ≡ₚ pre ++ [key].
Proof.
  intros (a & b & -> & -> & _).
  rewrite <- app_assoc. apply Permutation_app_head.
  change (key :: b) with ([key] ++ b). apply Permutation_app_comm.
Qed.

Lemma insertion_steps_perm (pre rest pre' : list A) :
  insertion_steps pre rest pre' -> pre' ≡ₚ pre ++ rest.
Proof.
  induction 1 as [pre | pre key rest pre1 pre' Hins _ IH].
  - now rewrite app_nil_r.
  - rewrite IH, (inserted_perm _ _ _ Hins), <- app_assoc. reflexivity.
Qed.

Lemma insertion_sorted_perm (l l' : list A) :
  insertion_sorted l l' -> l' ≡ₚ l.
Proof.
  destruct l as [| x rest]; simpl.
  - now intros ->.
  - apply insertion_steps_perm.
Qed.

Lemma StronglySorted_app_iff (R : relation A) (l1 l2 : list A) :
  StronglySorted R (l1 ++ l2) <->
  StronglySorted R l1 /\ StronglySorted R l2 /\
  Forall (fun x => Forall (R x) l2) l1.
Proof.
  induction l1 as [| x l1 IH]; simpl.
  - split; [intros Hs | intros (_ & Hs & _)]; auto.
    repeat split; auto; constructor.
  - split.
    + intros Hs. apply StronglySorted_inv in Hs. destruct Hs as [Hs Hx].
      apply IH in Hs. destruct Hs as (H1 & H2 & H12).
      apply Forall_app in Hx. destruct Hx as [Hx1 Hx2].
      repeat split; auto; constructor; auto.
    + intros (H1 & H2 & H12).
      apply StronglySorted_inv in H1. destruct H1 as [H1 Hx1].
      apply Forall_cons in H12. destruct H12 as [Hx2 H12].
      constructor.
      * apply IH. auto.
      * apply Forall_app. auto.
Qed.

Context `{!PyOrdLaws A}.

#[local] Instance le_rel_trans : Transitive le_rel.
Proof. intros x y z. apply le_py_trans. Qed.

Lemma le_rel_refl (x : A) : le_rel x x.
Proof. now destruct (le_py_total x x). Qed.

Lemma lt_py_true (x y : A) : lt_py x y = true -> le_rel x y /\ ~ le_rel y x.
Proof.
  rewrite lt_py_le_py. unfold le_rel. intros Hn.
  apply negb_true_iff in Hn. split; [| congruence].
  destruct (le_py_total x y); congruence.
Qed.

Lemma lt_py_false (x y : A) : lt_py x y = false -> le_rel y x.
Proof.
  rewrite lt_py_le_py. unfold le_rel. intros Hn.
  now apply negb_false_iff in Hn.
Qed.

Lemma le_py_false (x y : A) : le_py x y = false -> le_rel y x.
Proof. intros Hn. unfold le_rel. destruct (le_py_total x y); congruence. Qed.

Lemma same_key_true (k x : A) :
  same_key k x = true <-> le_rel k x /\ le_rel x k.
Proof. unfold same_key, le_rel. apply andb_true_iff. Qed.

Lemma filter_same_key_nil (k : A) (l : list A) :
  Forall (fun x => same_key k x = false) l ->
  List.filter (same_key k) l = [].
Proof.
  induction 1 as [| x l Hx _ IH]; simpl; [reflexivity |].
  now rewrite Hx.
Qed.

(** Everything in [b] lies strictly above [key]: nothing there compares
    equal to a value that compares equal to [key]. *)
Lemma filter_above (k key : A) (b : list A) :
  same_key k key = true ->
  Forall (fun x => lt_py key x = true) b ->
  List.filter (same_key k) b = [].
Proof.
  intros Hk Hb. apply filter_same_key_nil.
  eapply Forall_impl; [exact Hb |]. intros x Hx. simpl.
  apply same_key_true in Hk. destruct Hk as [Hk1 Hk2].
  apply lt_py_true in Hx. destruct Hx as [_ Hx].
  destruct (same_key k x) eqn:E; [| reflexivity].
  apply same_key_true in E. destruct E as [_ E].
  exfalso. apply Hx. now transitivity k.
Qed.

Lemma inserted_sorted key (pre pre' : list A) :
  StronglySorted le_rel pre -> inserted key pre pre' ->
  StronglySorted le_rel pre'.
Proof.
  intros Hs (a & b & -> & -> & Hb & Ha).
  apply StronglySorted_app_iff in Hs. destruct Hs as (Hsa & Hsb & Hab).
  assert (Hkb : Forall (le_rel key) b).
  { eapply Forall_impl; [exact Hb |]. intros x Hx. now apply lt_py_true in Hx. }
  assert (Hak : Forall (fun x => le_rel x key) a).
  { destruct a as [| y a' _] using rev_ind; [constructor |].
    assert (Hy : le_rel y key) by (eapply lt_py_false, Ha; reflexivity).
    apply StronglySorted_app_iff in Hsa. destruct Hsa as (_ & _ & Hay).
    apply Forall_app. split; [| now repeat constructor].
    eapply Forall_impl; [exact Hay |]. intros x Hx. simpl in Hx.
    apply Forall_inv in Hx. now transitivity y. }
  apply StronglySorted_app_iff. repeat split; auto.
  - constructor; auto.
  - apply Forall_forall. intros x Hx. constructor.
    + rewrite Forall_forall in Hak. auto.
    + rewrite Forall_forall in Hab. auto.
Qed.

Lemma inserted_stable key (pre pre' : list A) :
  inserted key pre pre' -> stable (pre ++ [key]) pre'.
Proof.
  intros (a & b & -> & -> & Hb & _) k.
  rewrite !List.filter_app. simpl.
  destruct (same_key k key) eqn:Hk.
  - rewrite (filter_above k key b Hk Hb). now rewrite app_nil_r.
  - now rewrite app_nil_r.
Qed.

Lemma insertion_steps_sorted (pre rest pre' : list A) :
  insertion_steps pre rest pre' ->
  StronglySorted le_rel pre ->
  StronglySorted le_rel pre' /\ stable (pre ++ rest) pre'.
Proof.
  induction 1 as [pre | pre key rest pre1 pre' Hins _ IH]; intros Hs.
  - split; [exact Hs |]. intros k. now rewrite app_nil_r.
  - destruct (IH (inserted_sorted _ _ _ Hs Hins)) as [Hs' Hst].
    split; [exact Hs' |]. intros k.
    rewrite Hst, List.filter_app, (inserted_stable _ _ _ Hins k).
    rewrite <- List.filter_app, <- app_assoc. reflexivity.
Qed.

Lemma insertion_sorted_spec (l l' : list A) :
  insertion_sorted l l' -> non_decreasing l' /\ stable l l'.
Proof.
  destruct l as [| x rest]; simpl.
  - intros ->. split; [constructor | intros k; reflexivity].
  - intros Hsteps.
    destruct (insertion_steps_sorted _ _ _ Hsteps) as [Hs Hst].
    + repeat constructor.
    + split; [now apply StronglySorted_Sorted | exact Hst].
Qed.

Lemma merge_list_sorted (la : list A) :
  forall lb,
    StronglySorted le_rel la -> StronglySorted le_rel lb ->
    StronglySorted le_rel (merge_list la lb).
Proof.
  induction la as [| x la IHa]; intros lb Hsa Hsb.
  - now destruct lb.
  - induction lb as [| y lb IHb]; [now rewrite merge_list_nil_r |].
    rewrite merge_list_cons.
    apply StronglySorted_inv in Hsa as Hsa'. destruct Hsa' as [Hsa' Hxa].
    apply StronglySorted_inv in Hsb as Hsb'. destruct Hsb' as [Hsb' Hyb].
    destruct (le_py x y) eqn:Hle.
    + constructor; [now apply IHa |].
      rewrite merge_list_perm. apply Forall_app. split; [exact Hxa |].
      constructor; [exact Hle |].
      eapply Forall_impl; [exact Hyb |]. intros z Hz. simpl in Hz.
      now transitivity y.
    + apply le_py_false in Hle.
      constructor; [now apply IHb |].
      rewrite merge_list_perm. apply Forall_app. split; [| exact Hyb].
      constructor; [exact Hle |].
      eapply Forall_impl; [exact Hxa |]. intros z Hz. simpl in Hz.
      now transitivity x.
Qed.

(** Ties go to the left argument, so elements that compare equal come out
    with those of [la] before those of [lb]. *)
Lemma merge_list_stable (k : A) (la : list A) :
  forall lb,
    StronglySorted le_rel la ->
    List.filter (same_key k) (merge_list la lb)
    = List.filter (same_key k) la ++ List.filter (same_key k) lb.
Proof.
  induction la as [| x la IHa]; intros lb Hsa.
  - now destruct lb.
  - induction lb as [| y lb IHb].
    + now rewrite merge_list_nil_r, app_nil_r.
    + rewrite merge_list_cons.
      apply StronglySorted_inv in Hsa as Hsa'. destruct Hsa' as [Hsa' Hxa].
      destruct (le_py x y) eqn:Hle.
      * cbn [List.filter]. rewrite (IHa (y :: lb) Hsa'). cbn [List.filter].
        now destruct (same_key k x).
      * cbn [List.filter]. rewrite IHb. cbn [List.filter].
        destruct (same_key k y) eqn:Hky; [| reflexivity].
        assert (Hnone : List.filter (same_key k) (x :: la) = []).
        { apply filter_same_key_nil.
          assert (Hall : Forall (le_rel x) (x :: la)).
          { constructor; [apply le_rel_refl | exact Hxa]. }
          eapply Forall_impl; [exact Hall |]. intros z Hz. simpl in Hz.
          destruct (same_key k z) eqn:Hkz; [| reflexivity].
          apply same_key_true in Hky. destruct Hky as [Hky _].
          apply same_key_true in Hkz. destruct Hkz as [_ Hkz].
          assert (Hxy : le_rel x y).
          { transitivity z; [exact Hz |]. now transitivity k. }
          unfold le_rel in Hxy. congruence. }
        cbn [List.filter] in Hnone. rewrite Hnone. reflexivity.
Qed.

Lemma merge_sorted_spec (l l' : list A) :
  merge_sorted l l' -> StronglySorted le_rel l' /\ stable l l'.
Proof.
  induction 1 as [l Hlen | l l1 l2 _ _ [Hs1 Hst1] _ [Hs2 Hst2]].
  - split; [| intros k; reflexivity].
    destruct l as [| x [| y l]]; simpl in Hlen; try lia;
      repeat constructor.
  - split; [now apply merge_list_sorted |].
    intros k. rewrite merge_list_stable by exact Hs1.
    rewrite Hst1, Hst2, <- List.filter_app, take_drop. reflexivity.
Qed.
End Specification.

(** ** The benchmark runner: frame and trace *)

Section BenchmarkRuns.
Context `{Host} {A : Type}.
Implicit Types (w : world A) (l : list A) (f : fn_obj A).

Lemma call_on_copy_weaken f l (h0 h1 : heap A) ev :
  h0 ⊆ h1 -> call_on_copy f l h1 ev -> call_on_copy f l h0 ev.
Proof.
  intros Hsub (c & -> & Hc). exists c. split; [reflexivity |].
  eapply lookup_weaken_None; eauto.
Qed.

Lemma benchmark_stmt_run f data l w :
  touches_only_argument (fn_call f) l ->
  w_heap w !! data = Some l ->
  match benchmark_stmt f data w with
  | Ok _ w' => w_clock w' = w_clock w /\ benchmark_done f l 1 w w'
  | Raise _ w' => benchmark_frame f l 1 w w'
  | OutOfFuel => True
  end.
Proof.
  intros Hf Hdata. unfold benchmark_stmt, bind, lift at 1, py_copy.
  rewrite Hdata. unfold py_new. cbn [set_heap w_heap].
  set (c := fresh (dom (w_heap w))).
  assert (Hc : w_heap w !! c = None) by apply fresh_lookup.
  unfold call, bind, log_event, lift, set_heap. cbn [w_heap w_clock w_trace].
  rewrite lookup_insert_eq. cbn [default from_option].
  pose proof (Hf (<[c := l]> (w_heap w)) c) as Hframe.
  assert (Hsub : forall h', final_state
                   (fn_call f c (<[c := l]> (w_heap w))) = Some h' ->
                 w_heap w ⊆ h').
  { intros h' Hfin. apply map_subseteq_spec. intros x lx Hx.
    apply (Hframe h'); auto.
    - apply lookup_insert_eq.
    - intros ->. congruence.
    - rewrite lookup_insert_ne; [exact Hx | intros ->; congruence]. }
  assert (Hcall : Forall (call_on_copy f l (w_heap w)) [EvCall (fn_name f) c l]).
  { repeat constructor. exists c. auto. }
  destruct (fn_call f c (<[c := l]> (w_heap w))) as [r h' | e h' |];
    unfold ret, benchmark_done, benchmark_frame;
    cbn [w_heap w_clock w_trace]; auto.
  - split; [reflexivity |]. split; [now apply Hsub |].
    exists [EvCall (fn_name f) c l]. auto.
  - split; [now apply Hsub |].
    exists [EvCall (fn_name f) c l]. auto.
Qed.

Lemma benchmark_frame_trans f l n1 n2 w w1 w2 :
  benchmark_frame f l n1 w w1 -> benchmark_frame f l n2 w1 w2 ->
  benchmark_frame f l (n1 + n2) w w2.
Proof.
  intros [Hs1 (c1 & Ht1 & Hc1 & Hn1)] [Hs2 (c2 & Ht2 & Hc2 & Hn2)].
  split; [now transitivity (w_heap w1) |].
  exists (c1 ++ c2). repeat split.
  - now rewrite Ht2, Ht1, app_assoc.
  - apply Forall_app. split; [exact Hc1 |].
    eapply Forall_impl; [exact Hc2 |]. intros ev. now apply call_on_copy_weaken.
  - rewrite length_app. lia.
Qed.

Lemma benchmark_done_frame f l n w w' :
  benchmark_done f l n w w' -> benchmark_frame f l n w w'.
Proof.
  intros [Hs (c & Ht & Hc & Hn)]. split; [exact Hs |].
  exists c. repeat split; auto. lia.
Qed.

Lemma benchmark_done_trans f l n1 n2 w w1 w2 :
  benchmark_done f l n1 w w1 -> benchmark_done f l n2 w1 w2 ->
  benchmark_done f l (n1 + n2) w w2.
Proof.
  intros [Hs1 (c1 & Ht1 & Hc1 & Hn1)] [Hs2 (c2 & Ht2 & Hc2 & Hn2)].
  split; [now transitivity (w_heap w1) |].
  exists (c1 ++ c2). repeat split.
  - now rewrite Ht2, Ht1, app_assoc.
  - apply Forall_app. split; [exact Hc1 |].
    eapply Forall_impl; [exact Hc2 |]. intros ev. now apply call_on_copy_weaken.
  - rewrite length_app. lia.
Qed.

Lemma benchmark_done_refl f l w : benchmark_done f l 0 w w.
Proof.
  split; [reflexivity |]. exists []. rewrite app_nil_r. repeat split. constructor.
Qed.

Lemma repeat_stmt_run f data l n :
  touches_only_argument (fn_call f) l ->
  forall w,
    w_heap w !! data = Some l ->
    match repeat_stmt n (benchmark_stmt f data) w with
    | Ok _ w' => w_clock w' = w_clock w /\ benchmark_done f l n w w'
    | Raise _ w' => benchmark_frame f l n w w'
    | OutOfFuel => True
    end.
Proof.
  intros Hf. induction n as [| n IH]; intros w Hdata.
  - simpl. unfold ret. split; [reflexivity | apply benchmark_done_refl].
  - cbn [repeat_stmt]. unfold bind.
    pose proof (benchmark_stmt_run f data l w Hf Hdata) as H1.
    destruct (benchmark_stmt f data w) as [[] w1 | e w1 |]; auto.
    + destruct H1 as [Hclk H1].
      assert (Hdata1 : w_heap w1 !! data = Some l).
      { eapply lookup_weaken; [exact Hdata | apply H1]. }
      specialize (IH w1 Hdata1).
      destruct (repeat_stmt n (benchmark_stmt f data) w1) as [[] w2 | e w2 |];
        auto.
      * destruct IH as [Hclk2 H2]. split; [congruence |].
        apply (benchmark_done_trans f l 1 n w w1 w2); auto.
      * apply (benchmark_frame_trans f l 1 n w w1 w2); auto.
        now apply benchmark_done_frame.
    + destruct H1 as [Hs (c & Ht & Hc & Hn)]. split; [exact Hs |].
      exists c. repeat split; auto. lia.
Qed.

(** [benchmark] as a whole: two clock readings around the repetitions. *)
Lemma benchmark_run f data repeats l w :
  touches_only_argument (fn_call f) l ->
  w_heap w !! data = Some l ->
  match benchmark f data repeats w with
  | Ok t w' => benchmark_returned f l (Z.to_nat repeats) t w w'
  | Raise _ w' => w_heap w ⊆ w_heap w'
  | OutOfFuel => True
  end.
Proof.
  intros Hf Hdata. unfold benchmark, timeit, bind.
  unfold read_timer at 1.
  destruct (host_timer (w_clock w)) as [t0 c0].
  set (w0 := Build_world (w_heap w) c0 (w_trace w ++ [EvTimer t0])).
  pose proof (repeat_stmt_run f data l (Z.to_nat repeats) Hf w0 Hdata) as Hrun.
  destruct (repeat_stmt (Z.to_nat repeats) (benchmark_stmt f data) w0)
    as [[] w1 | e w1 |]; auto.
  - unfold read_timer. destruct (host_timer (w_clock w1)) as [t1 c1].
    unfold ret. destruct Hrun as [_ [Hsub (calls & Htr & Hcalls & Hlen)]].
    split; [exact Hsub |]. exists t0, t1, calls. repeat split; auto.
    cbn [w_trace]. rewrite Htr. subst w0. cbn [w_trace]. unfold timed.
    rewrite <- !app_assoc. reflexivity.
  - apply Hrun.
Qed.

Lemma benchmark_stmt_returns f data l w :
  touches_only_argument (fn_call f) l ->
  returns_on (fn_call f) l ->
  w_heap w !! data = Some l ->
  exists w', benchmark_stmt f data w = Ok tt w'.
Proof.
  intros Hf Hret Hdata. unfold benchmark_stmt, bind, lift at 1, py_copy.
  rewrite Hdata. unfold py_new.
  unfold call, bind, log_event, lift, set_heap. cbn [w_heap w_clock w_trace].
  destruct (Hret (<[fresh (dom (w_heap w)) := l]> (w_heap w))
              (fresh (dom (w_heap w)))) as (r & h' & Hcall).
  { apply lookup_insert_eq. }
  rewrite Hcall. unfold ret. eauto.
Qed.

Lemma repeat_stmt_returns f data l n :
  touches_only_argument (fn_call f) l ->
  returns_on (fn_call f) l ->
  forall w,
    w_heap w !! data = Some l ->
    exists w', repeat_stmt n (benchmark_stmt f data) w = Ok tt w'.
Proof.
  intros Hf Hret. induction n as [| n IH]; intros w Hdata.
  - simpl. unfold ret. eauto.
  - cbn [repeat_stmt]. unfold bind.
    destruct (benchmark_stmt_returns f data l w Hf Hret Hdata) as (w1 & Hw1).
    pose proof (benchmark_stmt_run f data l w Hf Hdata) as H1.
    rewrite Hw1 in *. destruct H1 as [_ H1].
    apply IH. eapply lookup_weaken; [exact Hdata | apply H1].
Qed.

Lemma benchmark_returns f data repeats l w :
  touches_only_argument (fn_call f) l ->
  returns_on (fn_call f) l ->
  w_heap w !! data = Some l ->
  exists t w', benchmark f data repeats w = Ok t w'.
Proof.
  intros Hf Hret Hdata. unfold benchmark, timeit, bind.
  unfold read_timer at 1.
  destruct (host_timer (w_clock w)) as [t0 c0].
  destruct (repeat_stmt_returns f data l (Z.to_nat repeats) Hf Hret
              (Build_world (w_heap w) c0 (w_trace w ++ [EvTimer t0])) Hdata)
    as (w1 & Hw1).
  rewrite Hw1. unfold read_timer.
  destruct (host_timer (w_clock w1)) as [t1 c1]. unfold ret. eauto.
Qed.
End BenchmarkRuns.

(** ** The four benchmarked functions touch only their argument *)

Section SortFrames.
Context {A : Type} `{PyOrd A}.

Lemma insertion_sort_touches fuel (l : list A) :
  (length l <= fuel)%nat ->
  touches_only_argument (insertion_sort fuel) l /\
  returns_on (insertion_sort fuel) l.
Proof.
  intros Hfuel. split.
  - intros h c h' Hc Hfin x lx Hx Hlx.
    destruct (insertion_sort_run fuel c l h Hc Hfuel) as (l' & _ & Hrun).
    rewrite Hrun in Hfin. simpl in Hfin. injection Hfin as <-.
    now rewrite lookup_insert_ne by done.
  - intros h c Hc.
    destruct (insertion_sort_run fuel c l h Hc Hfuel) as (l' & _ & Hrun).
    eauto.
Qed.

Lemma merge_sort_touches fuel (l : list A) :
  (length l < fuel)%nat ->
  touches_only_argument (merge_sort fuel) l /\
  returns_on (merge_sort fuel) l.
Proof.
  intros Hfuel. split.
  - intros h c h' Hc Hfin x lx Hx Hlx.
    destruct (merge_sort_run fuel c l h Hc Hfuel)
      as (r' & l' & h1 & _ & Hrun & _ & Hsub & _).
    rewrite Hrun in Hfin. simpl in Hfin. injection Hfin as <-.
    eapply lookup_weaken; eauto.
  - intros h c Hc.
    destruct (merge_sort_run fuel c l h Hc Hfuel)
      as (r' & l' & h1 & _ & Hrun & _).
    eauto.
Qed.
End SortFrames.

Section HostSortFrames.
Context `{Host}.

Lemma python_sort_touches (l : list Z) :
  touches_only_argument python_sort l /\ returns_on python_sort l.
Proof.
  split.
  - intros h c h' Hc Hfin x lx Hx Hlx. unfold python_sort in Hfin.
    rewrite Hc in Hfin. simpl in Hfin. injection Hfin as <-.
    now rewrite lookup_insert_ne by done.
  - intros h c Hc. unfold python_sort. rewrite Hc. eauto.
Qed.

Lemma python_sorted_touches (l : list Z) :
  touches_only_argument python_sorted l /\ returns_on python_sorted l.
Proof.
  split.
  - intros h c h' Hc Hfin x lx Hx Hlx.
    unfold python_sorted, bind, py_iter, py_new in Hfin.
    rewrite Hc in Hfin. simpl in Hfin. injection Hfin as <-.
    rewrite lookup_insert_ne; [exact Hlx |].
    intros E. rewrite <- E, fresh_lookup in Hlx. discriminate.
  - intros h c Hc. unfold python_sorted, bind, py_iter, py_new.
    rewrite Hc. eauto.
Qed.
End HostSortFrames.

(** ** Two instances of orderable values *)

#[export] Instance Z_PyOrdLaws : PyOrdLaws Z.
Proof.
  split; simpl.
  - intros x y. destruct (Z.leb_spec x y); [now left |].
    right. apply Z.leb_le. lia.
  - intros x y z Hxy Hyz. apply Z.leb_le. apply Z.leb_le in Hxy, Hyz. lia.
  - intros x y. apply Z.ltb_antisym.
Qed.

#[export] Instance keyed_PyOrdLaws : PyOrdLaws keyed.
Proof.
  split; simpl.
  - intros x y. destruct (Z.leb_spec (fst x) (fst y)); [now left |].
    right. apply Z.leb_le. lia.
  - intros x y z Hxy Hyz. apply Z.leb_le. apply Z.leb_le in Hxy, Hyz. lia.
  - intros x y. apply Z.ltb_antisym.
Qed.

(** ** The comparison driver: datasets, results and trace *)

Section DriverRuns.
Context `{Host}.
Implicit Types (w : world Z) (d : list Z) (rng : host_rng).

Lemma draw_run {S} n value_range rng (s : S) :
  draw n value_range rng s
  = match draw_list n value_range rng with
    | Some p => Ok p s
    | None => Raise ValueError s
    end.
Proof.
  revert rng. induction n as [| n IH]; intros rng; [reflexivity |].
  cbn [draw draw_list].
  destruct (host_randint (fst value_range) (snd value_range) rng)
    as [[v rng'] |]; [| reflexivity].
  unfold bind. rewrite IH.
  destruct (draw_list n value_range rng') as [[vs rng''] |]; reflexivity.
Qed.

Lemma draw_list_length n value_range : forall rng d rng',
  draw_list n value_range rng = Some (d, rng') -> length d = n.
Proof.
  induction n as [| n IH]; intros rng d rng' Hd; simpl in Hd.
  - now injection Hd as <- _.
  - destruct (host_randint _ _ rng) as [[v r1] |]; [| discriminate].
    destruct (draw_list n value_range r1) as [[vs r2] |] eqn:E; [| discriminate].
    injection Hd as <- _. simpl. f_equal. eauto.
Qed.

Lemma benchmark_calls (f : fn_obj Z) base d repeats w :
  touches_only_argument (fn_call f) d ->
  returns_on (fn_call f) d ->
  w_heap w !! base = Some d ->
  exists t0 t1 w' calls,
    benchmark f base repeats w = Ok (PrimFloat.sub t1 t0) w' /\
    w_heap w ⊆ w_heap w' /\
    w_trace w' = w_trace w ++ timed t0 calls t1 /\
    calls_on_copies (fn_name f) (Z.to_nat repeats) base d calls.
Proof.
  intros Hf Hret Hbase.
  destruct (benchmark_returns f base repeats d w Hf Hret Hbase)
    as (t & w' & Hrun).
  pose proof (benchmark_run f base repeats d w Hf Hbase) as Hpost.
  rewrite Hrun in Hpost.
  destruct Hpost as [Hsub (t0 & t1 & calls & -> & Htr & Hcalls & Hlen)].
  exists t0, t1, w', calls. repeat split; auto.
  eapply Forall_impl; [exact Hcalls |].
  intros ev (c & -> & Hc). exists c. split; [reflexivity |].
  intros ->. congruence.
Qed.

Lemma compare_one_run fuel repeats value_range size rng d rng' w :
  draw_list (Z.to_nat size) value_range rng = Some (d, rng') ->
  (Z.to_nat size < fuel)%nat ->
  exists e w' tr,
    compare_one fuel repeats value_range size rng w = Ok (e, rng') w' /\
    w_heap w ⊆ w_heap w' /\
    w_trace w' = w_trace w ++ tr /\
    size_trace (Z.to_nat repeats) size d e tr.
Proof.
  intros Hd Hfuel.
  pose proof (draw_list_length _ _ _ _ _ Hd) as Hlen.
  unfold compare_one.
  erewrite bind_Ok by (rewrite draw_run, Hd; reflexivity).
  cbn [fst snd].
  set (base := fresh (dom (w_heap w))).
  set (w0 := Build_world (<[base := d]> (w_heap w)) (w_clock w)
                         (w_trace w ++ [EvDataset base d])).
  erewrite bind_Ok by reflexivity. fold base.
  erewrite bind_Ok by reflexivity.
  assert (Hw0 : w_heap w0 !! base = Some d) by apply lookup_insert_eq.
  destruct (insertion_sort_touches fuel d ltac:(lia)) as [Hf1 Hr1].
  destruct (merge_sort_touches fuel d ltac:(lia)) as [Hf2 Hr2].
  destruct (python_sort_touches d) as [Hf3 Hr3].
  destruct (python_sorted_touches d) as [Hf4 Hr4].
  destruct (benchmark_calls (insertion_sort_fn fuel) base d repeats w0
              Hf1 Hr1 Hw0) as (a1 & b1 & w1 & c1 & Hrun1 & Hs1 & Ht1 & Hc1).
  assert (Hw1 : w_heap w1 !! base = Some d) by (eapply lookup_weaken; eauto).
  destruct (benchmark_calls (merge_sort_fn fuel) base d repeats w1
              Hf2 Hr2 Hw1) as (a2 & b2 & w2 & c2 & Hrun2 & Hs2 & Ht2 & Hc2).
  assert (Hw2 : w_heap w2 !! base = Some d) by (eapply lookup_weaken; eauto).
  destruct (benchmark_calls python_sort_fn base d repeats w2
              Hf3 Hr3 Hw2) as (a3 & b3 & w3 & c3 & Hrun3 & Hs3 & Ht3 & Hc3).
  assert (Hw3 : w_heap w3 !! base = Some d) by (eapply lookup_weaken; eauto).
  destruct (benchmark_calls python_sorted_fn base d repeats w3
              Hf4 Hr4 Hw3) as (a4 & b4 & w4 & c4 & Hrun4 & Hs4 & Ht4 & Hc4).
  erewrite bind_Ok by exact Hrun1.
  erewrite bind_Ok by exact Hrun2.
  erewrite bind_Ok by exact Hrun3.
  erewrite bind_Ok by exact Hrun4.
  exists (result_entry size (PrimFloat.sub b1 a1) (PrimFloat.sub b2 a2)
            (PrimFloat.sub b3 a3) (PrimFloat.sub b4 a4)), w4,
         (EvDataset base d ::
            timed a1 c1 b1 ++ timed a2 c2 b2 ++
            timed a3 c3 b3 ++ timed a4 c4 b4).
  split; [reflexivity |]. split; [| split].
  - transitivity (w_heap w0); [apply insert_fresh_subseteq |].
    transitivity (w_heap w1); [exact Hs1 |].
    transitivity (w_heap w2); [exact Hs2 |].
    transitivity (w_heap w3); [exact Hs3 | exact Hs4].
  - rewrite Ht4, Ht3, Ht2, Ht1. subst w0. cbn [w_trace].
    rewrite <- !app_assoc. reflexivity.
  - exists base, c1, c2, c3, c4, a1, b1, a2, b2, a3, b3, a4, b4.
    repeat split; auto; apply Hc1 || apply Hc2 || apply Hc3 || apply Hc4.
Qed.

Lemma compare_loop_run fuel repeats value_range list_sizes :
  forall rng ds w,
    datasets_from rng value_range list_sizes = Some ds ->
    Forall (fun size => (Z.to_nat size < fuel)%nat) list_sizes ->
    exists results w' tr,
      compare_loop fuel repeats value_range list_sizes rng w = Ok results w' /\
      w_heap w ⊆ w_heap w' /\
      w_trace w' = w_trace w ++ tr /\
      run_trace (Z.to_nat repeats) list_sizes ds results tr.
Proof.
  induction list_sizes as [| size sizes IH]; intros rng ds w Hds Hfuel.
  - simpl in Hds. injection Hds as <-.
    exists [], w, []. repeat split; auto.
    + now rewrite app_nil_r.
    + constructor.
  - cbn [datasets_from] in Hds.
    destruct (draw_list (Z.to_nat size) value_range rng) as [[d rng'] |] eqn:Hd;
      [| discriminate].
    destruct (datasets_from rng' value_range sizes) as [ds' |] eqn:Hds';
      [| discriminate].
    injection Hds as <-.
    apply Forall_cons in Hfuel. destruct Hfuel as [Hsize Hfuel].
    destruct (compare_one_run fuel repeats value_range size rng d rng' w
                Hd Hsize) as (e & w1 & tr1 & Hrun1 & Hs1 & Ht1 & Htr1).
    destruct (IH rng' ds' w1 Hds' Hfuel)
      as (results & w2 & tr2 & Hrun2 & Hs2 & Ht2 & Htr2).
    exists (e :: results), w2, (tr1 ++ tr2). repeat split.
    + cbn [compare_loop]. erewrite bind_Ok by exact Hrun1. cbn [fst snd].
      now erewrite bind_Ok by exact Hrun2.
    + now transitivity (w_heap w1).
    + now rewrite Ht2, Ht1, app_assoc.
    + now constructor.
Qed.

Lemma draw_list_app n m value_range : forall rng,
  draw_list (n + m) value_range rng
  = match draw_list n value_range rng with
    | Some (d1, rng1) =>
        match draw_list m value_range rng1 with
        | Some (d2, rng2) => Some (d1 ++ d2, rng2)
        | None => None
        end
    | None => None
    end.
Proof.
  induction n as [| n IH]; intros rng.
  - simpl. now destruct (draw_list m value_range rng) as [[d2 rng2] |].
  - cbn [Nat.add draw_list].
    destruct (host_randint _ _ rng) as [[v r1] |]; [| reflexivity].
    rewrite IH.
    destruct (draw_list n value_range r1) as [[d1 r2] |]; [| reflexivity].
    now destruct (draw_list m value_range r2) as [[d2 r3] |].
Qed.

(** The datasets are consecutive segments of the one sequence of draws that
    starts at [rng]. *)
Lemma datasets_from_stream value_range list_sizes : forall rng ds,
  datasets_from rng value_range list_sizes = Some ds ->
  exists rng',
    draw_list (length (concat ds)) value_range rng = Some (concat ds, rng') /\
    length <$> ds = Z.to_nat <$> list_sizes.
Proof.
  induction list_sizes as [| size sizes IH]; intros rng ds Hds.
  - injection Hds as <-. simpl. eauto.
  - cbn [datasets_from] in Hds.
    destruct (draw_list (Z.to_nat size) value_range rng) as [[d rng1] |] eqn:Hd;
      [| discriminate].
    destruct (datasets_from rng1 value_range sizes) as [ds' |] eqn:Hds';
      [| discriminate].
    injection Hds as <-.
    destruct (IH rng1 ds' Hds') as (rng' & Hstream & Hlens).
    pose proof (draw_list_length _ _ _ _ _ Hd) as Hlen.
    exists rng'. split.
    + cbn [concat]. rewrite length_app, draw_list_app, Hlen, Hd, Hstream.
      reflexivity.
    + rewrite !fmap_cons. now rewrite Hlen, Hlens.
Qed.
End DriverRuns.

Section DriverRange.
Context `{Host} `{!HostLaws}.


End DriverRange.

(** ** Python numbers *)

(** Conversion of an integer to a float rounds to 53 binary digits.  The
    lemmas below follow a mantissa through that rounding by its number of
    digits, which is enough to see that the result of converting a non-zero
    integer is a non-zero float or an infinity. *)

Lemma fexp_binary64 (e : Z) : fexp prec emax e = Z.max (e - 53) (-1074).
Proof. reflexivity. Qed.

Lemma digits2_pos_iter_xO (p k : positive) :
  Z.pos (digits2_pos (Pos.iter xO p k)) = Z.pos (digits2_pos p) + Z.pos k.
Proof.
  induction k as [| k IH] using Pos.peano_ind.
  - simpl. lia.
  - rewrite Pos.iter_succ. cbn [digits2_pos]. lia.
Qed.

Lemma digits2_pos_succ (p : positive) :
  Z.pos (digits2_pos (Pos.succ p)) = Z.pos (digits2_pos p) \/
  Z.pos (digits2_pos (Pos.succ p)) = Z.pos (digits2_pos p) + 1.
Proof.
  induction p as [p IH | p IH |]; simpl Pos.succ; simpl digits2_pos;
    rewrite ?Pos2Z.inj_succ; lia.
Qed.

Lemma shr_1_digits (q : positive) (r s : bool) :
  1 < Z.pos (digits2_pos q) ->
  exists q' r' s',
    shr_1 (Build_shr_record (Z.pos q) r s) = Build_shr_record (Z.pos q') r' s' /\
    Z.pos (digits2_pos q') = Z.pos (digits2_pos q) - 1.
Proof.
  intros Hd. destruct q as [q | q |]; cbn [digits2_pos] in Hd |- *.
  - eexists _, _, _. split; [reflexivity | lia].
  - eexists _, _, _. split; [reflexivity | lia].
  - lia.
Qed.

Lemma iter_shr_1_digits (n : positive) : forall (q : positive) (r s : bool),
  Z.pos n < Z.pos (digits2_pos q) ->
  exists q' r' s',
    SpecFloat.iter_pos shr_1 n (Build_shr_record (Z.pos q) r s)
    = Build_shr_record (Z.pos q') r' s' /\
    Z.pos (digits2_pos q') = Z.pos (digits2_pos q) - Z.pos n.
Proof.
  induction n as [n IH | n IH |]; intros q r s Hn; cbn [SpecFloat.iter_pos].
  - destruct (shr_1_digits q r s) as (q1 & r1 & s1 & -> & H1); [lia |].
    destruct (IH q1 r1 s1) as (q2 & r2 & s2 & -> & H2); [lia |].
    destruct (IH q2 r2 s2) as (q3 & r3 & s3 & -> & H3); [lia |].
    eexists _, _, _. split; [reflexivity | lia].
  - destruct (IH q r s) as (q2 & r2 & s2 & -> & H2); [lia |].
    destruct (IH q2 r2 s2) as (q3 & r3 & s3 & -> & H3); [lia |].
    eexists _, _, _. split; [reflexivity | lia].
  - destruct (shr_1_digits q r s) as (q1 & r1 & s1 & -> & H1); [lia |].
    eexists _, _, _. split; [reflexivity | lia].
Qed.

(** Shifting a mantissa of at least 53 digits down to the binary64
    precision leaves exactly 53 digits. *)
Lemma shr_fexp_digits (q : positive) (e : Z) (l : location) :
  53 <= Z.pos (digits2_pos q) -> -1074 <= e ->
  exists q' r' s',
    shr_fexp prec emax (Z.pos q) e l
    = (Build_shr_record (Z.pos q') r' s', e + Z.pos (digits2_pos q) - 53) /\
    Z.pos (digits2_pos q') = 53.
Proof.
  intros Hd He. unfold shr_fexp. rewrite fexp_binary64. cbn [Zdigits2].
  replace (Z.max (Z.pos (digits2_pos q) + e - 53) (-1074) - e)
    with (Z.pos (digits2_pos q) - 53) by lia.
  destruct (Z.pos (digits2_pos q) - 53) as [| n | n] eqn:Hn; try lia.
  - unfold shr. destruct l as [| []]; cbn [shr_record_of_loc];
      eexists _, _, _; (split; [f_equal; lia | lia]).
  - unfold shr.
    assert (Hlt : Z.pos n < Z.pos (digits2_pos q)) by lia.
    destruct l as [| []]; cbn [shr_record_of_loc];
      match goal with
      | |- context [SpecFloat.iter_pos shr_1 n {| shr_m := _; shr_r := ?r; shr_s := ?s |}] =>
          destruct (iter_shr_1_digits n q r s Hlt) as (q' & r' & s' & -> & Hq')
      end;
      eexists _, _, _; (split; [f_equal; lia | lia]).
Qed.

Lemma round_nearest_even_digits (q : positive) (l : location) :
  exists q',
    round_nearest_even (Z.pos q) l = Z.pos q' /\
    (Z.pos (digits2_pos q') = Z.pos (digits2_pos q) \/
     Z.pos (digits2_pos q') = Z.pos (digits2_pos q) + 1).
Proof.
  assert (Hsucc : Z.pos q + 1 = Z.pos (Pos.succ q)) by lia.
  unfold round_nearest_even.
  destruct l as [| [| |]]; try (exists q; split; [reflexivity | now left]).
  - match goal with |- context [if ?b then _ else _] => destruct b end.
    + exists q. split; [reflexivity | now left].
    + exists (Pos.succ q). split; [exact Hsucc | apply digits2_pos_succ].
  - exists (Pos.succ q). split; [exact Hsucc | apply digits2_pos_succ].
Qed.

Lemma binary_round_aux_digits (s : bool) (q : positive) (e : Z) (l : location) :
  53 <= Z.pos (digits2_pos q) -> -1074 <= e ->
  (exists m e', binary_round_aux prec emax s (Z.pos q) e l = S754_finite s m e' /\
                valid_binary (S754_finite s m e') = true) \/
  binary_round_aux prec emax s (Z.pos q) e l = S754_infinity s.
Proof.
  intros Hd He. unfold binary_round_aux.
  destruct (shr_fexp_digits q e l Hd He) as (q1 & r1 & s1 & -> & H1).
  cbn [shr_m].
  destruct (round_nearest_even_digits q1
              (loc_of_shr_record {| shr_m := Z.pos q1; shr_r := r1; shr_s := s1 |}))
    as (q2 & -> & H2).
  destruct (shr_fexp_digits q2 (e + Z.pos (digits2_pos q) - 53) loc_Exact)
    as (q3 & r3 & s3 & -> & H3); [lia | lia |].
  cbn [shr_m].
  destruct (Z.leb_spec (e + Z.pos (digits2_pos q) - 53 + Z.pos (digits2_pos q2) - 53)
              (emax - prec)) as [Hle | Hgt].
  - left. eexists _, _. split; [reflexivity |].
    unfold valid_binary, SpecFloat.valid_binary, bounded, canonical_mantissa.
    rewrite fexp_binary64, H3.
    apply andb_true_intro. split.
    + apply Z.eqb_eq. lia.
    + now apply Z.leb_le.
  - now right.
Qed.

Lemma binary_round_int (s : bool) (p : positive) :
  (exists m e, binary_round prec emax s p 0 = S754_finite s m e /\
               valid_binary (S754_finite s m e) = true) \/
  binary_round prec emax s p 0 = S754_infinity s.
Proof.
  unfold binary_round. rewrite fexp_binary64. unfold shl_align.
  replace (Z.max (Z.pos (digits2_pos p) + 0 - 53) (-1074) - 0)
    with (Z.pos (digits2_pos p) - 53) by lia.
  replace (Z.max (Z.pos (digits2_pos p) + 0 - 53) (-1074))
    with (Z.pos (digits2_pos p) - 53) by lia.
  destruct (Z.pos (digits2_pos p) - 53) as [| n | n] eqn:Hn.
  - apply binary_round_aux_digits; lia.
  - apply binary_round_aux_digits; lia.
  - apply binary_round_aux_digits.
    + rewrite digits2_pos_iter_xO. lia.
    + lia.
Qed.

(** A non-zero integer does not convert to zero. *)
Lemma float_of_int_nonzero (z : Z) :
  z <> 0 -> PrimFloat.is_infinity (float_of_int z) = false ->
  PrimFloat.eqb (float_of_int z) PrimFloat.zero = false.
Proof.
  intros Hz Hinf. unfold float_of_int in *.
  assert (Hround : exists s p,
             binary_normalize prec emax z 0 false = binary_round prec emax s p 0).
  { destruct z as [| p | p]; [contradiction | |]; eexists _, _; reflexivity. }
  destruct Hround as (s & p & Heq). rewrite Heq in *.
  destruct (binary_round_int s p) as [(m & e & Hr & Hvalid) | Hr];
    rewrite Hr in *.
  - rewrite FloatAxioms.eqb_spec, Prim2SF_SF2Prim by exact Hvalid.
    destruct s; reflexivity.
  - destruct s; vm_compute in Hinf; discriminate.
Qed.

Lemma int_to_float_raises (z : Z) (e : exn) :
  int_to_float z = inl e -> e = OverflowError.
Proof.
  unfold int_to_float.
  destruct (PrimFloat.is_infinity (float_of_int z)); congruence.
Qed.

Lemma as_float_raises (v : pynum) (e : exn) :
  as_float v = inl e -> e = OverflowError.
Proof.
  destruct v as [z | f]; simpl; [apply int_to_float_raises | discriminate].
Qed.

(** A number that is not [== 0] does not become zero as a float. *)
Lemma as_float_nonzero (v : pynum) (f : float) :
  py_is_zero v = false -> as_float v = inr f ->
  PrimFloat.eqb f PrimFloat.zero = false.
Proof.
  destruct v as [z | g]; simpl; intros Hz Hf.
  - unfold int_to_float in Hf.
    destruct (PrimFloat.is_infinity (float_of_int z)) eqn:Hinf;
      [discriminate |].
    injection Hf as <-. apply float_of_int_nonzero; [| exact Hinf].
    now apply Z.eqb_neq.
  - now injection Hf as <-.
Qed.

Lemma float_path_raises (a b : pynum) (e : exn) :
  py_is_zero b = false ->
  match as_float a with
  | inl e' => inl e'
  | inr x =>
      match as_float b with
      | inl e' => inl e'
      | inr y => float_truediv x y
      end
  end = inl e ->
  e = OverflowError.
Proof.
  intros Hz Hdiv.
  destruct (as_float a) as [ea | x] eqn:Ha.
  { injection Hdiv as <-. now apply (as_float_raises a). }
  destruct (as_float b) as [eb | y] eqn:Hb.
  { injection Hdiv as <-. now apply (as_float_raises b). }
  unfold float_truediv in Hdiv.
  rewrite (as_float_nonzero b y Hz Hb) in Hdiv. discriminate.
Qed.

(** Behind the guard [values[-1] == 0] the division cannot raise
    [ZeroDivisionError]: what is left is [OverflowError]. *)
Lemma py_truediv_raises (r v : pynum) (e : exn) :
  py_is_zero v = false -> py_truediv r v = inl e -> e = OverflowError.
Proof.
  intros Hz Hdiv. destruct r as [x | fx], v as [y | fy];
    try (match type of Hdiv with
         | py_truediv ?a ?b = _ => exact (float_path_raises a b e Hz Hdiv)
         end).
  cbn [py_truediv] in Hdiv. unfold int_truediv in Hdiv.
  cbn [py_is_zero] in Hz. rewrite Hz in Hdiv.
  destruct (x =? 0); [discriminate |].
  destruct (SFdiv_core_binary prec emax (Z.abs x) 0 (Z.abs y) 0)
    as [[q e'] l].
  match type of Hdiv with
  | (if ?b then _ else _) = _ => destruct b
  end; congruence.
Qed.

Lemma py_mul_raises (x f : pynum) (e : exn) :
  py_mul x f = inl e -> e = OverflowError.
Proof.
  intros Hmul. destruct x as [a | fa], f as [b | fb];
    cbn [py_mul as_float] in Hmul; try discriminate.
  - destruct (int_to_float a) as [ea | y] eqn:Ha; [| discriminate].
    injection Hmul as <-. now apply (int_to_float_raises a).
  - destruct (int_to_float b) as [eb | y] eqn:Hb; [| discriminate].
    injection Hmul as <-. now apply (int_to_float_raises b).
Qed.

Lemma Forall2_checked_unique {T U} (f : T -> checked U) (xs : list T) :
  forall ys1 ys2 : list U,
  Forall2 (fun x y => f x = inr y) xs ys1 ->
  Forall2 (fun x y => f x = inr y) xs ys2 ->
  ys1 = ys2.
Proof.
  induction xs as [| x xs IH]; intros ys1 ys2 H1 H2.
  - apply Forall2_nil_inv_l in H1, H2. congruence.
  - apply Forall2_cons_inv_l in H1, H2.
    destruct H1 as (y1 & t1 & Hy1 & Ht1 & ->).
    destruct H2 as (y2 & t2 & Hy2 & Ht2 & ->).
    f_equal; [congruence | now apply IH].
Qed.

(** ** The curve scaler *)

Section ScalerRuns.
Implicit Types (h : heap pynum) (lv lr : list pynum).

Lemma py_getitem_last {A} (h : heap A) r (l : list A) x :
  h !! r = Some l -> last l = Some x -> py_getitem r (-1) h = Ok x h.
Proof.
  intros Hr Hlast. unfold py_getitem. rewrite Hr.
  assert (Hlen : (0 < length l)%nat) by (destruct l; [discriminate | simpl; lia]).
  rewrite index_of_last by exact Hlen. simpl.
  rewrite last_lookup in Hlast. now rewrite Hlast.
Qed.

Lemma map_M_checked {S T U} (f : T -> checked U) (xs : list T) (s : S) :
  match map_M (fun x => run_checked (f x)) xs s with
  | Ok ys s' => s' = s /\ Forall2 (fun x y => f x = inr y) xs ys
  | Raise e s' => s' = s /\ Exists (fun x => f x = inl e) xs
  | OutOfFuel => False
  end.
Proof.
  induction xs as [| x xs IH]; simpl.
  - unfold ret. split; [reflexivity | constructor].
  - unfold bind, run_checked at 1. destruct (f x) as [e | y] eqn:Hfx.
    + unfold raise. split; [reflexivity | now constructor].
    + unfold ret at 1.
      destruct (map_M (fun x => run_checked (f x)) xs s) as [ys s' | e s' |].
      * destruct IH as [-> IH]. unfold ret. split; [reflexivity |].
        now constructor.
      * destruct IH as [-> IH]. split; [reflexivity | now constructor].
      * exact IH.
Qed.

(** The three cases in which the curve is returned as it is. *)
Lemma scale_identity h values reference lv lr :
  h !! values = Some lv -> h !! reference = Some lr ->
  lv = [] \/ lr = [] \/ (exists v, last lv = Some v /\ py_is_zero v = true) ->
  _scale_theoretical_curve values reference h = Ok values h.
Proof.
  intros Hv Hr Hcase. unfold _scale_theoretical_curve.
  erewrite bind_Ok by (apply py_len_Ok; exact Hv).
  destruct lv as [| v0 lv']; [reflexivity |].
  cbn [length]. destruct (Z.eqb_spec (Z.of_nat (S (length lv'))) 0); [lia |].
  erewrite bind_Ok by (apply py_len_Ok; exact Hr).
  destruct lr as [| r0 lr']; [reflexivity |].
  cbn [length]. destruct (Z.eqb_spec (Z.of_nat (S (length lr'))) 0); [lia |].
  destruct Hcase as [Hnil | [Hnil | (v & Hlast & Hzero)]]; try discriminate.
  erewrite bind_Ok by (eapply py_getitem_last; eauto).
  now rewrite Hzero.
Qed.

(** The remaining case: every element is multiplied by the one factor. *)
Lemma scale_scaled h values reference lv lr v r :
  h !! values = Some lv -> h !! reference = Some lr ->
  last lv = Some v -> last lr = Some r -> py_is_zero v = false ->
  match _scale_theoretical_curve values reference h with
  | Ok out h' =>
      exists factor scaled,
        py_truediv r v = inr factor /\
        Forall2 (fun x y => py_mul x factor = inr y) lv scaled /\
        h !! out = None /\ h' = <[out := scaled]> h
  | Raise e h' =>
      h' = h /\
      (py_truediv r v = inl e \/
       exists factor,
         py_truediv r v = inr factor /\
         Exists (fun x => py_mul x factor = inl e) lv)
  | OutOfFuel => False
  end.
Proof.
  intros Hv Hr Hlv Hlr Hzero. unfold _scale_theoretical_curve.
  erewrite bind_Ok by (apply py_len_Ok; exact Hv).
  destruct lv as [| v0 lv']; [discriminate |].
  cbn [length]. destruct (Z.eqb_spec (Z.of_nat (S (length lv'))) 0); [lia |].
  erewrite bind_Ok by (apply py_len_Ok; exact Hr).
  destruct lr as [| r0 lr']; [discriminate |].
  cbn [length]. destruct (Z.eqb_spec (Z.of_nat (S (length lr'))) 0); [lia |].
  erewrite bind_Ok by (eapply py_getitem_last; eauto).
  rewrite Hzero.
  erewrite bind_Ok by (eapply py_getitem_last; eauto).
  erewrite bind_Ok by (eapply py_getitem_last; eauto).
  unfold bind at 1. unfold run_checked at 1.
  destruct (py_truediv r v) as [e | factor] eqn:Hdiv.
  - unfold raise. auto.
  - unfold ret at 1. unfold bind at 1. unfold py_iter. rewrite Hv.
    unfold bind.
    pose proof (map_M_checked (fun x => py_mul x factor) (v0 :: lv') h) as Hmap.
    destruct (map_M _ (v0 :: lv') h) as [scaled h' | e h' |].
    + destruct Hmap as [-> Hall]. unfold py_new.
      exists factor, scaled. repeat split; auto. apply fresh_lookup.
    + destruct Hmap as [-> Hex]. split; [reflexivity |]. right. eauto.
    + exact Hmap.
Qed.

(** On floats the scaling never raises. *)
Lemma scale_floats_return h values reference lv lr v r :
  h !! values = Some lv -> h !! reference = Some lr ->
  last lv = Some v -> last lr = Some r -> py_is_zero v = false ->
  Forall is_float lv -> is_float r ->
  exists out h', _scale_theoretical_curve values reference h = Ok out h'.
Proof.
  intros Hv Hr Hlv Hlr Hzero Hfl Hfr.
  pose proof (scale_scaled h values reference lv lr v r Hv Hr Hlv Hlr Hzero)
    as Hrun.
  destruct (_scale_theoretical_curve values reference h) as [out h' | e h' |];
    [eauto | | contradiction].
  exfalso.
  assert (Hfv : is_float v).
  { rewrite Forall_forall in Hfl. apply Hfl.
    rewrite last_lookup in Hlv. eapply list_elem_of_lookup_2; eauto. }
  destruct r as [| fr]; [contradiction |].
  destruct v as [| fv]; [contradiction |].
  simpl in Hzero.
  destruct Hrun as [_ [Hdiv | (factor & Hdiv & Hex)]].
  - simpl in Hdiv. unfold float_truediv in Hdiv. now rewrite Hzero in Hdiv.
  - simpl in Hdiv. unfold float_truediv in Hdiv. rewrite Hzero in Hdiv.
    injection Hdiv as <-.
    apply Exists_exists in Hex. destruct Hex as (x & Hx & Hmul).
    rewrite Forall_forall in Hfl. specialize (Hfl x Hx).
    destruct x; [contradiction | discriminate].
Qed.

(** What the arithmetic decides, the run does: with the factor and all the
    products computed, the scaler returns them in a new list. *)
Lemma scale_run_products h values reference lv lr v r factor
    (scaled : list pynum) :
  h !! values = Some lv -> h !! reference = Some lr ->
  last lv = Some v -> last lr = Some r -> py_is_zero v = false ->
  py_truediv r v = inr factor ->
  Forall2 (fun x y => py_mul x factor = inr y) lv scaled ->
  exists out,
    h !! out = None /\
    _scale_theoretical_curve values reference h = Ok out (<[out := scaled]> h).
Proof.
  intros Hv Hr Hlv Hlr Hzero Hdiv Hall.
  pose proof (scale_scaled h values reference lv lr v r Hv Hr Hlv Hlr Hzero)
    as Hrun.
  destruct (_scale_theoretical_curve values reference h)
    as [out h' | e h' |]; [| exfalso | contradiction].
  - destruct Hrun as (factor' & scaled' & Hdiv' & Hall' & Hout & ->).
    assert (factor' = factor) as -> by congruence.
    rewrite (Forall2_checked_unique _ _ _ _ Hall' Hall). eauto.
  - destruct Hrun as [_ [Hdiv' | (factor' & Hdiv' & Hex)]]; [congruence |].
    assert (factor' = factor) as -> by congruence.
    apply Exists_exists in Hex. destruct Hex as (x & Hx & Hmul).
    apply list_elem_of_lookup_1 in Hx. destruct Hx as (i & Hi).
    destruct (Forall2_lookup_l _ _ _ _ _ Hall Hi) as (y & _ & Hy).
    congruence.
Qed.

(** Whatever the scaler raises behind its guards is [OverflowError]. *)
Lemma scale_raises_overflow h values reference lv lr v r e h' :
  h !! values = Some lv -> h !! reference = Some lr ->
  last lv = Some v -> last lr = Some r -> py_is_zero v = false ->
  _scale_theoretical_curve values reference h = Raise e h' ->
  e = OverflowError /\ h' = h /\
  (py_truediv r v = inl OverflowError \/
   exists factor,
     py_truediv r v = inr factor /\
     Exists (fun x => py_mul x factor = inl OverflowError) lv).
Proof.
  intros Hv Hr Hlv Hlr Hzero Hraise.
  pose proof (scale_scaled h values reference lv lr v r Hv Hr Hlv Hlr Hzero)
    as Hrun.
  rewrite Hraise in Hrun. destruct Hrun as [-> Hwhy].
  assert (He : e = OverflowError).
  { destruct Hwhy as [Hdiv | (factor & _ & Hex)].
    - now apply (py_truediv_raises r v).
    - apply Exists_exists in Hex. destruct Hex as (x & _ & Hmul).
      now apply (py_mul_raises x factor). }
  subst e. auto.
Qed.
End ScalerRuns.

(** * The claims *)

(** ** The sorting functions *)

Section SortTheorems.
Context {A : Type} `{PyOrd A}.
Implicit Types (h : heap A) (l la lb : list A) (r a b : loc).

Lemma shift_step_decreases key lst (j j' : Z) h h1 h2 :
  shift_cond key lst j h = Ok true h1 ->
  shift_body lst j h1 = Ok j' h2 ->
  j' = j - 1 /\ -1 <= j'.
Proof.
  unfold shift_cond, shift_body, bind, ret. intros Hc Hb.
  destruct (Z.leb_spec 0 j) as [Hj |]; [| discriminate].
  destruct (py_getitem lst j h1) as [x s | |]; try discriminate.
  destruct (py_setitem lst (j + 1) x s) as [[] s' | |]; try discriminate.
  injection Hb as <- _. lia.
Qed.

Lemma merge_step_increases left right merged (li ri li' ri' : Z) h h1 h2 la lb :
  h !! left = Some la -> h !! right = Some lb ->
  merge_cond left right (li, ri) h = Ok true h1 ->
  merge_body left right merged (li, ri) h1 = Ok (li', ri') h2 ->
  li' + ri' = li + ri + 1 /\
  li' + ri' <= Z.of_nat (length la) + Z.of_nat (length lb).
Proof.
  intros Ha Hb Hc Hbody.
  rewrite (merge_cond_Ok _ _ _ _ _ _ _ Ha Hb) in Hc.
  injection Hc as Hc _. apply andb_true_iff in Hc. destruct Hc as [Hli Hri].
  apply Z.ltb_lt in Hli, Hri.
  unfold merge_body, bind, ret in Hbody.
  destruct (py_getitem left li h1) as [x s1 | |]; try discriminate.
  destruct (py_getitem right ri s1) as [y s2 | |]; try discriminate.
  destruct (le_py x y).
  - destruct (py_getitem left li s2) as [x' s3 | |]; try discriminate.
    destruct (py_append merged x' s3) as [[] s4 | |]; try discriminate.
    injection Hbody as <- <- _. lia.
  - destruct (py_getitem right ri s2) as [y' s3 | |]; try discriminate.
    destruct (py_append merged y' s3) as [[] s4 | |]; try discriminate.
    injection Hbody as <- <- _. lia.
Qed.

Lemma split_halves_spec arr l h :
  h !! arr = Some l ->
  exists left_half right_half h2,
    split_halves arr h = Ok (left_half, right_half) h2 /\
    h ⊆ h2 /\
    h2 !! left_half = Some (take (length l / 2) l) /\
    h2 !! right_half = Some (drop (length l / 2) l).
Proof.
  intros Harr. pose proof (split_halves_run arr l h Harr) as Hrun.
  simpl in Hrun.
  set (lh := fresh (dom h)) in *.
  set (h1 := <[lh := take (length l / 2) l]> h) in *.
  set (rh := fresh (dom h1)) in *.
  exists lh, rh, (<[rh := drop (length l / 2) l]> h1).
  assert (Hne : rh <> lh).
  { eapply fresh_ne. subst h1. apply lookup_insert_eq. }
  repeat split.
  - exact Hrun.
  - transitivity h1; apply insert_fresh_subseteq.
  - rewrite lookup_insert_ne by done. subst h1. apply lookup_insert_eq.
  - apply lookup_insert_eq.
Qed.

Lemma halves_shorter l :
  (1 < length l)%nat ->
  (length (take (length l / 2) l) < length l)%nat /\
  (length (drop (length l / 2) l) < length l)%nat /\
  (length (take (length l / 2) l) <= length (drop (length l / 2) l))%nat.
Proof.
  intros Hlen. rewrite length_take, length_drop.
  assert (0 < length l / 2)%nat by (apply Nat.div_str_pos; lia).
  assert (length l / 2 < length l)%nat by (apply Nat.div_lt; lia).
  assert (2 * (length l / 2) <= length l)%nat
    by (apply Nat.Div0.mul_div_le).
  lia.
Qed.

(** C10. [insertion_sort], [merge] and [merge_sort] terminate on every
    finite list.  Each iteration of the inner loop of insertion sort
    decreases [j] by one and never below [-1]; each iteration of the main
    loop of [merge] increases [left_index + right_index] by one and never
    above [len(left) + len(right)]; [merge_sort] recurses on two halves that
    are strictly shorter than its argument; and with fuel above the length
    of the input every one of the three functions returns. *)
Theorem sorts_terminate h r a b l la lb (fuel : nat) :
  h !! r = Some l -> h !! a = Some la -> h !! b = Some lb ->
  (length l < fuel)%nat -> (length la + length lb < fuel)%nat ->
  (forall key (j j' : Z) h0 h1 h2,
      shift_cond key r j h0 = Ok true h1 ->
      shift_body r j h1 = Ok j' h2 ->
      j' = j - 1 /\ -1 <= j') /\
  (forall merged (li ri li' ri' : Z) h1 h2,
      merge_cond a b (li, ri) h = Ok true h1 ->
      merge_body a b merged (li, ri) h1 = Ok (li', ri') h2 ->
      li' + ri' = li + ri + 1 /\
      li' + ri' <= Z.of_nat (length la) + Z.of_nat (length lb)) /\
  ((1 < length l)%nat ->
   exists left_half right_half h2 l1 l2,
     split_halves r h = Ok (left_half, right_half) h2 /\
     h2 !! left_half = Some l1 /\ h2 !! right_half = Some l2 /\
     (length l1 < length l)%nat /\ (length l2 < length l)%nat) /\
  (exists h', insertion_sort fuel r h = Ok r h') /\
  (exists m h', merge fuel a b h = Ok m h') /\
  (exists r' h', merge_sort fuel r h = Ok r' h').
Proof.
  intros Hr Ha Hb Hfuel Hfuel2.
  split; [| split; [| split; [| split; [| split]]]].
  - intros key j j' h0 h1 h2. apply shift_step_decreases.
  - intros merged li ri li' ri' h1 h2.
    now apply merge_step_increases.
  - intros Hlen.
    destruct (split_halves_spec r l h Hr) as (lh & rh & h2 & Hrun & _ & Hl & Hrh).
    destruct (halves_shorter l Hlen) as (H1 & H2 & _).
    exists lh, rh, h2, (take (length l / 2) l), (drop (length l / 2) l). auto.
  - destruct (insertion_sort_run fuel r l h Hr) as (l' & _ & Hrun); [lia |].
    eauto.
  - rewrite (merge_run fuel a b la lb h Ha Hb Hfuel2). eauto.
  - destruct (merge_sort_run fuel r l h Hr Hfuel)
      as (r' & l' & h' & _ & Hrun & _). eauto.
Qed.
End SortTheorems.

Section OrderedSortTheorems.
Context {A : Type} `{PyOrd A} `{!PyOrdLaws A}.
Implicit Types (h : heap A) (l la lb : list A) (r a b : loc).

Lemma non_decreasing_strong l : non_decreasing l -> StronglySorted le_rel l.
Proof. apply Sorted_StronglySorted. intros x y z. apply le_py_trans. Qed.

Lemma insertion_sort_correct fuel r l h :
  h !! r = Some l -> (length l <= fuel)%nat ->
  exists l',
    insertion_sort fuel r h = Ok r (<[r := l']> h) /\
    non_decreasing l' /\ l' ≡ₚ l /\ stable l l'.
Proof.
  intros Hr Hfuel.
  destruct (insertion_sort_run fuel r l h Hr Hfuel) as (l' & Hspec & Hrun).
  destruct (insertion_sorted_spec l l' Hspec) as [Hs Hst].
  exists l'. repeat split; auto. now apply insertion_sorted_perm.
Qed.

Lemma merge_sort_correct fuel r l h :
  h !! r = Some l -> (length l < fuel)%nat ->
  exists r' h' l',
    merge_sort fuel r h = Ok r' h' /\
    h' !! r' = Some l' /\ h ⊆ h' /\
    non_decreasing l' /\ l' ≡ₚ l /\ stable l l' /\
    ((length l <= 1)%nat -> r' = r /\ h' = h) /\
    ((1 < length l)%nat -> h !! r' = None).
Proof.
  intros Hr Hfuel.
  destruct (merge_sort_run fuel r l h Hr Hfuel)
    as (r' & l' & h' & Hspec & Hrun & Hr' & Hsub & Hshort & Hlong).
  destruct (merge_sorted_spec l l' Hspec) as [Hs Hst].
  exists r', h', l'. repeat split; auto.
  - now apply StronglySorted_Sorted.
  - now apply merge_sorted_perm.
  - now apply Hshort.
  - now apply Hshort.
Qed.

(** C1. For every finite list of orderable values, [insertion_sort] and
    [merge_sort] each produce a list in non-decreasing order that is a
    permutation of the input: same length, same multiset of elements. *)
Theorem sorts_sorted_permutation h r l (fuel : nat) :
  h !! r = Some l -> (length l < fuel)%nat ->
  (exists l',
     insertion_sort fuel r h = Ok r (<[r := l']> h) /\
     non_decreasing l' /\ l' ≡ₚ l /\ length l' = length l) /\
  (exists r' h' l',
     merge_sort fuel r h = Ok r' h' /\ h' !! r' = Some l' /\
     non_decreasing l' /\ l' ≡ₚ l /\ length l' = length l).
Proof.
  intros Hr Hfuel. split.
  - destruct (insertion_sort_correct fuel r l h Hr) as (l' & Hrun & Hs & Hp & _);
      [lia |].
    exists l'. repeat split; auto. now apply Permutation_length.
  - destruct (merge_sort_correct fuel r l h Hr Hfuel)
      as (r' & h' & l' & Hrun & Hr' & _ & Hs & Hp & _).
    exists r', h', l'. repeat split; auto. now apply Permutation_length.
Qed.

(** C7. [insertion_sort] sorts its argument in place: it returns the
    reference it was given, the list behind that reference is in
    non-decreasing order afterwards and no other list has changed.  On an
    empty or one-element list the loop has no iteration (the range is empty,
    so no fuel is needed) and the store is left exactly as it was. *)
Theorem insertion_sort_in_place h r l (fuel : nat) :
  h !! r = Some l -> (length l <= fuel)%nat ->
  (exists l',
     insertion_sort fuel r h = Ok r (<[r := l']> h) /\
     non_decreasing l' /\ l' ≡ₚ l) /\
  ((length l <= 1)%nat ->
   py_range 1 (Z.of_nat (length l)) = [] /\
   forall fuel', insertion_sort fuel' r h = Ok r h).
Proof.
  intros Hr Hfuel. split.
  - destruct (insertion_sort_correct fuel r l h Hr Hfuel)
      as (l' & Hrun & Hs & Hp & _).
    exists l'. auto.
  - intros Hshort.
    assert (Hrange : py_range 1 (Z.of_nat (length l)) = []).
    { unfold py_range.
      replace (Z.to_nat (Z.of_nat (length l) - 1)) with 0%nat by lia.
      reflexivity. }
    split; [exact Hrange |]. intros fuel'. unfold insertion_sort.
    erewrite bind_Ok by (apply py_len_Ok; exact Hr).
    rewrite Hrange. reflexivity.
Qed.

(** C8. [merge_sort] does not mutate its input: every list that exists
    before the call, the argument included, is unchanged after it.  The
    result is in non-decreasing order.  A list of length at most 1 is
    returned as it is (the same reference, the store untouched); a longer one
    yields a list that did not exist before.  The halves are cut at
    [len // 2], so the left one is never the longer. *)
Theorem merge_sort_no_mutation h arr l (fuel : nat) :
  h !! arr = Some l -> (length l < fuel)%nat ->
  exists r' h' l',
    merge_sort fuel arr h = Ok r' h' /\
    h ⊆ h' /\ h' !! arr = Some l /\
    h' !! r' = Some l' /\ non_decreasing l' /\ l' ≡ₚ l /\
    ((length l <= 1)%nat -> r' = arr /\ h' = h) /\
    ((1 < length l)%nat ->
     h !! r' = None /\
     exists left_half right_half h2,
       split_halves arr h = Ok (left_half, right_half) h2 /\
       h2 !! left_half = Some (take (length l / 2) l) /\
       h2 !! right_half = Some (drop (length l / 2) l) /\
       (length (take (length l / 2) l)
        <= length (drop (length l / 2) l))%nat /\
       take (length l / 2) l ++ drop (length l / 2) l = l).
Proof.
  intros Harr Hfuel.
  destruct (merge_sort_correct fuel arr l h Harr Hfuel)
    as (r' & h' & l' & Hrun & Hr' & Hsub & Hs & Hp & _ & Hshort & Hlong).
  exists r', h', l'. repeat split; auto.
  - eapply lookup_weaken; eauto.
  - now apply Hshort.
  - now apply Hshort.
  - destruct (split_halves_spec arr l h Harr)
      as (lh & rh & h2 & Hsplit & _ & Hlh & Hrh).
    exists lh, rh, h2. repeat split; auto.
    + now apply halves_shorter.
    + apply take_drop.
Qed.

(** C2. On two lists that are each in non-decreasing order, [merge] returns
    a new list in non-decreasing order of length [len(a) + len(b)], leaving
    its arguments as they are.  When the current left and right elements
    compare equal, the loop body appends the left one and advances the left
    index only, so that among equal elements those of the left list come
    first.  The main loop stops as soon as one side is exhausted, and the
    result is what it has built followed by the remainder of the other side,
    unchanged. *)
Theorem merge_sorted_lists h a b la lb (fuel : nat) :
  h !! a = Some la -> h !! b = Some lb ->
  non_decreasing la -> non_decreasing lb ->
  (length la + length lb < fuel)%nat ->
  exists m out,
    merge fuel a b h = Ok m (<[m := out]> h) /\
    h !! m = None /\
    non_decreasing out /\
    length out = (length la + length lb)%nat /\
    (forall (i j : nat) x y mc h1,
        h1 !! a = Some la -> h1 !! b = Some lb -> h1 !! m = Some mc ->
        la !! i = Some x -> lb !! j = Some y -> same_key x y = true ->
        merge_body a b m (Z.of_nat i, Z.of_nat j) h1
        = Ok (Z.of_nat i + 1, Z.of_nat j) (<[m := mc ++ [x]]> h1)) /\
    (forall k,
        List.filter (same_key k) out
        = List.filter (same_key k) la ++ List.filter (same_key k) lb) /\
    (exists ca ra cb rb mc,
        la = ca ++ ra /\ lb = cb ++ rb /\ (ra = [] \/ rb = []) /\
        merge_main fuel a b h
        = Ok (m, (Z.of_nat (length ca), Z.of_nat (length cb)))
             (<[m := mc]> h) /\
        out = mc ++ ra ++ rb).
Proof.
  intros Ha Hb Hsa Hsb Hfuel.
  exists (fresh (dom h)), (merge_list la lb).
  apply non_decreasing_strong in Hsa, Hsb.
  split; [now apply merge_run |].
  split; [apply fresh_lookup |].
  split; [now apply StronglySorted_Sorted, merge_list_sorted |].
  split; [now rewrite (Permutation_length (merge_list_perm la lb)), length_app |].
  split; [| split].
  - intros i j x y mc h1 Ha1 Hb1 Hm1 Hx Hy Hsame.
    rewrite (merge_body_Ok _ _ _ _ _ _ _ _ _ _ _ Ha1 Hb1 Hm1 Hx Hy).
    apply same_key_true in Hsame. destruct Hsame as [Hle _].
    unfold le_rel in Hle. now rewrite Hle.
  - intros k. now apply merge_list_stable.
  - destruct (merge_main_run fuel a b la lb h Ha Hb Hfuel)
      as (ca & ra & cb & rb & mc & Eca & Ecb & Hex & Hmc & Hrun).
    exists ca, ra, cb, rb, mc. auto.
Qed.
End OrderedSortTheorems.

(** C3. Both sorts are stable: for every key, the elements that compare
    equal to it appear in the output in the order they have in the input.
    In particular both sorts return [(1,'a'), (1,'b')], compared by first
    component, in that order. *)
Theorem sorts_stable {A : Type} `{PyOrd A} `{!PyOrdLaws A}
    (h : heap A) (r : loc) (l : list A) (fuel : nat) :
  h !! r = Some l -> (length l < fuel)%nat ->
  (exists l' : list A,
     insertion_sort fuel r h = Ok r (<[r := l']> h) /\
     forall k, List.filter (same_key k) l' = List.filter (same_key k) l) /\
  (exists r' h' (l' : list A),
     merge_sort fuel r h = Ok r' h' /\ h' !! r' = Some l' /\
     forall k, List.filter (same_key k) l' = List.filter (same_key k) l) /\
  (forall (hk : heap keyed) rk,
     hk !! rk = Some [(1, "a"); (1, "b")] ->
     (exists out : list keyed,
        insertion_sort 3 rk hk = Ok rk (<[rk := out]> hk) /\
        out = [(1, "a"); (1, "b")]) /\
     (exists rk' hk' (out : list keyed),
        merge_sort 3 rk hk = Ok rk' hk' /\ hk' !! rk' = Some out /\
        out = [(1, "a"); (1, "b")])).
Proof.
  intros Hr Hfuel. split; [| split].
  - destruct (insertion_sort_correct fuel r l h Hr)
      as (l' & Hrun & _ & _ & Hst); [lia |].
    exists l'. auto.
  - destruct (merge_sort_correct fuel r l h Hr Hfuel)
      as (r' & h' & l' & Hrun & Hr' & _ & _ & _ & Hst & _).
    exists r', h', l'. auto.
  - intros hk rk Hrk.
    assert (Hkeys : Forall (fun x : keyed => same_key (1, "a") x = true)
                      [(1, "a"); (1, "b")]) by (repeat constructor).
    split.
    + destruct (insertion_sort_correct 3 rk _ hk Hrk)
        as (out & Hrun & _ & Hp & Hst); [simpl; lia |].
      exists out. split; [exact Hrun |].
      now apply (stable_same_key (1, "a")).
    + destruct (merge_sort_correct 3 rk _ hk Hrk)
        as (rk' & hk' & out & Hrun & Hr' & _ & _ & Hp & Hst & _);
        [simpl; lia |].
      exists rk', hk', out. repeat split; auto.
      now apply (stable_same_key (1, "a")).
Qed.

(** ** The benchmark runner and the driver *)

(** C5. [benchmark] never mutates its [data] argument.  Each execution of
    the timed statement hands the function a copy of [data] that did not
    exist before, so that, for a function that touches only the list it is
    given, [data] and every other list that existed before the call are
    unchanged when [benchmark] returns, and also when the function raises.
    When it returns, the function was called exactly [repeats] times, each
    time on such a copy holding the contents of [data], between two readings
    of the clock whose difference is the result. *)
Theorem benchmark_preserves_data `{Host} {A : Type}
    (function : fn_obj A) (data : loc) (repeats : Z) (l : list A)
    (w : world A) :
  touches_only_argument (fn_call function) l ->
  w_heap w !! data = Some l ->
  match benchmark function data repeats w with
  | Ok t w' =>
      w_heap w' !! data = Some l /\
      w_heap w ⊆ w_heap w' /\
      exists t0 t1 calls,
        t = PrimFloat.sub t1 t0 /\
        w_trace w' = w_trace w ++ EvTimer t0 :: calls ++ [EvTimer t1] /\
        length calls = Z.to_nat repeats /\
        Forall (fun ev => exists c,
                  ev = EvCall (fn_name function) c l /\
                  c <> data /\ w_heap w !! c = None) calls
  | Raise _ w' =>
      w_heap w' !! data = Some l /\ w_heap w ⊆ w_heap w'
  | OutOfFuel => True
  end /\
  (returns_on (fn_call function) l ->
   exists t w', benchmark function data repeats w = Ok t w').
Proof.
  intros Hf Hdata. split.
  - pose proof (benchmark_run function data repeats l w Hf Hdata) as Hrun.
    destruct (benchmark function data repeats w) as [t w' | e w' |]; auto.
    + destruct Hrun as [Hsub (t0 & t1 & calls & Ht & Htr & Hcalls & Hlen)].
      split; [eapply lookup_weaken; eauto |]. split; [exact Hsub |].
      exists t0, t1, calls. repeat split; auto.
      eapply Forall_impl; [exact Hcalls |].
      intros ev (c & -> & Hc). exists c. repeat split; auto.
      intros ->. congruence.
    + split; [eapply lookup_weaken; eauto | exact Hrun].
  - intros Hret. now apply (benchmark_returns function data repeats l w).
Qed.

Section DriverTheorems.
Context `{Host}.

Lemma trace_datasets_app tr1 tr2 :
  trace_datasets (tr1 ++ tr2) = trace_datasets tr1 ++ trace_datasets tr2.
Proof.
  induction tr1 as [| [base d | name c d | t] tr1 IH]; simpl;
    [reflexivity | | |].
  - now rewrite IH.
  - exact IH.
  - exact IH.
Qed.

Lemma trace_datasets_calls name n base d calls :
  calls_on_copies name n base d calls -> trace_datasets calls = [].
Proof.
  intros [_ Hall]. induction Hall as [| ev calls (c & -> & _) _ IH];
    [reflexivity | exact IH].
Qed.

Lemma trace_datasets_timed name n base d calls t0 t1 :
  calls_on_copies name n base d calls ->
  trace_datasets (timed t0 calls t1) = [].
Proof.
  intros Hcalls. unfold timed. cbn [trace_datasets].
  rewrite trace_datasets_app.
  now rewrite (trace_datasets_calls _ _ _ _ _ Hcalls).
Qed.

Lemma trace_datasets_size n size d e tr :
  size_trace n size d e tr -> trace_datasets tr = [d].
Proof.
  intros (base & c1 & c2 & c3 & c4 & a1 & b1 & a2 & b2 & a3 & b3 & a4 & b4
          & -> & _ & H1 & H2 & H3 & H4).
  cbn [trace_datasets]. rewrite !trace_datasets_app.
  now rewrite (trace_datasets_timed _ _ _ _ _ _ _ H1),
    (trace_datasets_timed _ _ _ _ _ _ _ H2),
    (trace_datasets_timed _ _ _ _ _ _ _ H3),
    (trace_datasets_timed _ _ _ _ _ _ _ H4).
Qed.

Lemma trace_datasets_run n sizes ds es tr :
  run_trace n sizes ds es tr -> trace_datasets tr = ds.
Proof.
  induction 1 as [| size sizes d ds e es tr1 tr2 Hsize _ IH]; [reflexivity |].
  rewrite trace_datasets_app, (trace_datasets_size _ _ _ _ _ Hsize), IH.
  reflexivity.
Qed.

Lemma compare_run fuel list_sizes repeats seed value_range ds (w : world Z) :
  datasets_from (host_seed seed) value_range list_sizes = Some ds ->
  Forall (fun size => (Z.to_nat size < fuel)%nat) list_sizes ->
  exists results w' tr,
    compare_sorting_algorithms fuel (Some list_sizes) (Some repeats)
      (Some seed) (Some value_range) w = Ok results w' /\
    w_heap w ⊆ w_heap w' /\
    w_trace w' = w_trace w ++ tr /\
    run_trace (Z.to_nat repeats) list_sizes ds results tr.
Proof.
  intros Hds Hfuel. unfold compare_sorting_algorithms. cbn [default from_option].
  now apply compare_loop_run.
Qed.

(** C6. Dataset generation is deterministic.  The generator is seeded once,
    from [seed], and threaded through the whole loop: the datasets are
    consecutive segments, of the requested sizes, of the one sequence of
    draws that starts at [host_seed seed].  Two runs with the same seed,
    sizes and value range, started in any two worlds (stores, clocks and
    traces may differ), generate these same datasets, and in each run every
    one of the four functions is called [repeats] times on copies of the
    dataset of the current size, never on the dataset itself. *)
Theorem datasets_deterministic (fuel : nat) (list_sizes : list Z)
    (repeats seed : Z) (value_range : Z * Z) (ds : list (list Z))
    (w1 w2 : world Z) :
  datasets_from (host_seed seed) value_range list_sizes = Some ds ->
  Forall (fun size => (Z.to_nat size < fuel)%nat) list_sizes ->
  exists results1 w1' tr1 results2 w2' tr2,
    compare_sorting_algorithms fuel (Some list_sizes) (Some repeats)
      (Some seed) (Some value_range) w1 = Ok results1 w1' /\
    compare_sorting_algorithms fuel (Some list_sizes) (Some repeats)
      (Some seed) (Some value_range) w2 = Ok results2 w2' /\
    w_trace w1' = w_trace w1 ++ tr1 /\
    w_trace w2' = w_trace w2 ++ tr2 /\
    trace_datasets tr1 = ds /\ trace_datasets tr2 = ds /\
    run_trace (Z.to_nat repeats) list_sizes ds results1 tr1 /\
    run_trace (Z.to_nat repeats) list_sizes ds results2 tr2 /\
    length <$> ds = Z.to_nat <$> list_sizes /\
    exists rng',
      draw_list (length (concat ds)) value_range (host_seed seed)
      = Some (concat ds, rng').
Proof.
  intros Hds Hfuel.
  destruct (compare_run fuel list_sizes repeats seed value_range ds w1
              Hds Hfuel) as (r1 & w1' & tr1 & Hrun1 & _ & Ht1 & Htr1).
  destruct (compare_run fuel list_sizes repeats seed value_range ds w2
              Hds Hfuel) as (r2 & w2' & tr2 & Hrun2 & _ & Ht2 & Htr2).
  destruct (datasets_from_stream _ _ _ _ Hds) as (rng' & Hstream & Hlens).
  exists r1, w1', tr1, r2, w2', tr2.
  repeat split; eauto using trace_datasets_run.
Qed.
End DriverTheorems.

Section DriverResultTheorems.
Context `{Host} `{!HostLaws}.

Lemma result_entry_holds size t1 t2 t3 t4 :
  holds_size_and_timings size (result_entry size t1 t2 t3 t4).
Proof.
  unfold result_entry. split; [| split].
  - now rewrite !lookup_insert_ne, lookup_insert_eq by done.
  - exists t1, t2, t3, t4. repeat split.
  - rewrite !dom_insert_L, dom_empty_L. set_solver.
Qed.

Lemma run_trace_entries n sizes ds es tr :
  run_trace n sizes ds es tr -> Forall2 holds_size_and_timings sizes es.
Proof.
  induction 1 as [| size sizes d ds e es tr1 tr2 Hsize _ IH]; constructor;
    [| exact IH].
  destruct Hsize
    as (base & c1 & c2 & c3 & c4 & a1 & b1 & a2 & b2 & a3 & b3 & a4 & b4
        & _ & -> & _).
  apply result_entry_holds.
Qed.

End DriverResultTheorems.

(** ** The curve scaler *)

Lemma Forall2_last {T U} (P : T -> U -> Prop) (xs : list T) (ys : list U) x :
  Forall2 P xs ys -> last xs = Some x ->
  exists y, last ys = Some y /\ P x y.
Proof.
  intros Hall Hlast. rewrite last_lookup in Hlast.
  destruct (Forall2_lookup_l _ _ _ _ _ Hall Hlast) as (y & Hy & Hxy).
  exists y. split; [| exact Hxy].
  rewrite last_lookup. now rewrite <- (Forall2_length _ _ _ Hall).
Qed.

(** On that input the scaled value is [49 * (1.0 / 49)], the float just
    below one. *)
Lemma scale_endpoint_rounding :
  _scale_theoretical_curve 0%nat 1%nat endpoint_heap
  = Ok 2%nat (<[2%nat := [PyFloat 0x1.fffffffffffffp-1%float]]> endpoint_heap)
  /\ py_eq (PyFloat 0x1.fffffffffffffp-1%float) (PyFloat 1%float) = false.
Proof. split; vm_compute; reflexivity. Qed.

(** C4, as stated, fails: the endpoint is a rounded product, and it can
    miss the last measured value. *)
Lemma scale_matches_endpoint_fails : ~ scale_matches_endpoint.
Proof.
  intros Hclaim. destruct scale_endpoint_rounding as [Hrun Hneq].
  specialize (Hclaim endpoint_heap 0%nat 1%nat [PyInt 49] [PyFloat 1%float]
                (PyInt 49) (PyFloat 1%float) 2%nat _ _ _
                eq_refl eq_refl eq_refl eq_refl eq_refl eq_refl Hrun
                (lookup_insert_eq _ _ _) eq_refl).
  rewrite Hneq in Hclaim. discriminate.
Qed.

(** C4, amended.  On lists of Python ints and floats, of whatever lengths,
    [_scale_theoretical_curve] returns the theoretical list itself, and
    leaves the store as it is, when either list is empty or the last
    theoretical value is zero.  Otherwise it computes the one factor
    [measured[-1] / theoretical[-1]] and the product of every theoretical
    value with it, in Python arithmetic, and exactly one of two things
    happens.  Either the factor and all the products can be computed: then
    it returns a new list of the same length that holds these products,
    nothing else being changed, and whose last element is
    [theoretical[-1] * factor].  Or the division or one of the products
    raises, which behind the zero guard is always [OverflowError] and never
    [ZeroDivisionError]: then it raises [OverflowError], and nothing has been
    created or changed.  When the theoretical values and the last measured
    value are floats it returns.  The last element of the result need not be
    the last measured value: [scale([49], [1.0])] is
    [[0.9999999999999999]].  In particular [scale([], [1,2,3])] is the empty
    list it was given, and [scale([0,0,4], [1,2,10])] is [[0.0, 0.0, 10.0]],
    whose last element equals 10. *)
Theorem scale_theoretical_curve_spec (h : heap pynum) (values reference : loc)
    (lv lr : list pynum) :
  h !! values = Some lv -> h !! reference = Some lr ->
  (lv = [] \/ lr = [] \/ (exists v, last lv = Some v /\ py_is_zero v = true) ->
   _scale_theoretical_curve values reference h = Ok values h) /\
  (forall v r,
      last lv = Some v -> last lr = Some r -> py_is_zero v = false ->
      (exists factor scaled out y,
          py_truediv r v = inr factor /\
          Forall2 (fun x x' => py_mul x factor = inr x') lv scaled /\
          length scaled = length lv /\
          h !! out = None /\
          _scale_theoretical_curve values reference h
          = Ok out (<[out := scaled]> h) /\
          last scaled = Some y /\ py_mul v factor = inr y) \/
      (_scale_theoretical_curve values reference h = Raise OverflowError h /\
       (py_truediv r v = inl OverflowError \/
        exists factor,
          py_truediv r v = inr factor /\
          Exists (fun x => py_mul x factor = inl OverflowError) lv))) /\
  (forall v r,
      last lv = Some v -> last lr = Some r -> py_is_zero v = false ->
      Forall is_float lv -> is_float r ->
      exists out h', _scale_theoretical_curve values reference h = Ok out h') /\
  (lv = [PyInt 49] -> lr = [PyFloat 1%float] ->
   exists out,
     h !! out = None /\
     _scale_theoretical_curve values reference h
     = Ok out (<[out := [PyFloat 0x1.fffffffffffffp-1%float]]> h) /\
     py_eq (PyFloat 0x1.fffffffffffffp-1%float) (PyFloat 1%float) = false) /\
  (lv = [] -> lr = [PyInt 1; PyInt 2; PyInt 3] ->
   _scale_theoretical_curve values reference h = Ok values h) /\
  (lv = [PyInt 0; PyInt 0; PyInt 4] -> lr = [PyInt 1; PyInt 2; PyInt 10] ->
   exists out,
     h !! out = None /\
     _scale_theoretical_curve values reference h
     = Ok out (<[out := [PyFloat 0%float; PyFloat 0%float; PyFloat 10%float]]> h) /\
     py_eq (PyFloat 10%float) (PyInt 10) = true).
Proof.
  intros Hv Hr. split; [| split; [| split; [| split; [| split]]]].
  - now apply (scale_identity h values reference lv lr).
  - intros v r Hlv Hlr Hzero.
    pose proof (scale_scaled h values reference lv lr v r Hv Hr Hlv Hlr Hzero)
      as Hrun.
    destruct (_scale_theoretical_curve values reference h)
      as [out h' | e h' |] eqn:Hout; [left | right | contradiction].
    + destruct Hrun as (factor & scaled & Hdiv & Hall & Hfresh & ->).
      destruct (Forall2_last _ _ _ _ Hall Hlv) as (y & Hy & Hmul).
      exists factor, scaled, out, y.
      split; [exact Hdiv |]. split; [exact Hall |].
      split; [symmetry; eapply Forall2_length; eauto |].
      split; [exact Hfresh |]. split; [reflexivity |].
      split; [exact Hy | exact Hmul].
    + destruct (scale_raises_overflow h values reference lv lr v r e h'
                  Hv Hr Hlv Hlr Hzero Hout) as (-> & -> & Hwhy).
      split; [reflexivity | exact Hwhy].
  - intros v r Hlv Hlr Hzero Hfl Hfr.
    now apply (scale_floats_return h values reference lv lr v r).
  - intros -> ->.
    destruct (scale_run_products h values reference _ _
                (PyInt 49) (PyFloat 1%float)
                (PyFloat 0x1.4e5e0a72f0539p-6%float)
                [PyFloat 0x1.fffffffffffffp-1%float]
                Hv Hr eq_refl eq_refl eq_refl) as (out & Hfresh & Hrun).
    + vm_compute. reflexivity.
    + repeat (constructor; [vm_compute; reflexivity |]). constructor.
    + exists out. split; [exact Hfresh |]. split; [exact Hrun |].
      vm_compute. reflexivity.
  - intros -> _. apply (scale_identity h values reference [] lr); auto.
  - intros -> ->.
    destruct (scale_run_products h values reference _ _
                (PyInt 4) (PyInt 10) (PyFloat 2.5%float)
                [PyFloat 0%float; PyFloat 0%float; PyFloat 10%float]
                Hv Hr eq_refl eq_refl eq_refl) as (out & Hfresh & Hrun).
    + vm_compute. reflexivity.
    + repeat (constructor; [vm_compute; reflexivity |]). constructor.
    + exists out. split; [exact Hfresh |]. split; [exact Hrun |].
      vm_compute. reflexivity.
Qed.

(** ** The theorems at concrete inputs *)


Lemma sorts_sorted_permutation_witness :
  demo_heap !! 0%nat = Some [3; 1; 2] /\ (length [3; 1; 2] < 4)%nat /\
  (exists l',
     insertion_sort 4 0%nat demo_heap = Ok 0%nat (<[0%nat := l']> demo_heap) /\
     non_decreasing l' /\ l' ≡ₚ [3; 1; 2] /\ length l' = length [3; 1; 2]) /\
  (exists r' h' l',
     merge_sort 4 0%nat demo_heap = Ok r' h' /\ h' !! r' = Some l' /\
     non_decreasing l' /\ l' ≡ₚ [3; 1; 2] /\ length l' = length [3; 1; 2]).
Proof.
  split; [reflexivity |]. split; [simpl; lia |].
  apply (sorts_sorted_permutation demo_heap 0%nat [3; 1; 2] 4);
    [reflexivity | simpl; lia].
Defined.

Lemma insertion_sort_in_place_witness :
  demo_heap !! 0%nat = Some [3; 1; 2] /\ (length [3; 1; 2] <= 3)%nat /\
  (exists l',
     insertion_sort 3 0%nat demo_heap = Ok 0%nat (<[0%nat := l']> demo_heap) /\
     non_decreasing l' /\ l' ≡ₚ [3; 1; 2]) /\
  ((length [3; 1; 2] <= 1)%nat ->
   py_range 1 (Z.of_nat (length [3; 1; 2])) = [] /\
   forall fuel', insertion_sort fuel' 0%nat demo_heap = Ok 0%nat demo_heap).
Proof.
  split; [reflexivity |]. split; [simpl; lia |].
  apply (insertion_sort_in_place demo_heap 0%nat [3; 1; 2] 3);
    [reflexivity | simpl; lia].
Defined.

Lemma sorts_terminate_witness :
  demo_heap !! 0%nat = Some [3; 1; 2] /\ demo_heap !! 1%nat = Some [1; 4] /\
  (exists h', insertion_sort 6 0%nat demo_heap = Ok 0%nat h') /\
  (exists m h', merge 6 0%nat 1%nat demo_heap = Ok m h') /\
  (exists r' h', merge_sort 6 0%nat demo_heap = Ok r' h').
Proof.
  split; [reflexivity |]. split; [reflexivity |].
  apply (sorts_terminate demo_heap 0%nat 0%nat 1%nat [3; 1; 2] [3; 1; 2] [1; 4] 6);
    first [reflexivity | simpl; lia].
Defined.

Lemma merge_sorted_lists_witness :
  sorted_heap !! 0%nat = Some [1; 2; 4] /\
  sorted_heap !! 1%nat = Some [2; 2; 5] /\
  non_decreasing [1; 2; 4] /\ non_decreasing [2; 2; 5] /\
  exists m out,
    merge 7 0%nat 1%nat sorted_heap = Ok m (<[m := out]> sorted_heap) /\
    non_decreasing out /\ length out = 6%nat.
Proof.
  assert (H1 : non_decreasing [1; 2; 4]) by (repeat constructor).
  assert (H2 : non_decreasing [2; 2; 5]) by (repeat constructor).
  split; [reflexivity |]. split; [reflexivity |].
  split; [exact H1 |]. split; [exact H2 |].
  destruct (merge_sorted_lists sorted_heap 0%nat 1%nat [1; 2; 4] [2; 2; 5] 7
              eq_refl eq_refl H1 H2 ltac:(simpl; lia))
    as (m & out & Hrun & _ & Hs & Hlen & _).
  exists m, out. auto.
Defined.

Lemma sorts_stable_witness :
  keyed_heap !! 0%nat = Some [(2, "x"); (1, "a"); (1, "b")] /\
  exists l' : list keyed,
    insertion_sort 4 0%nat keyed_heap = Ok 0%nat (<[0%nat := l']> keyed_heap) /\
    List.filter (same_key (1, "a")) l' = [(1, "a"); (1, "b")].
Proof.
  split; [reflexivity |].
  destruct (sorts_stable keyed_heap 0%nat [(2, "x"); (1, "a"); (1, "b")] 4
              eq_refl ltac:(simpl; lia)) as ((l' & Hrun & Hst) & _).
  exists l'. split; [exact Hrun |]. exact (Hst (1, "a")).
Defined.

Lemma merge_sort_no_mutation_witness :
  demo_heap !! 0%nat = Some [3; 1; 2] /\
  exists r' h' l',
    merge_sort 4 0%nat demo_heap = Ok r' h' /\
    demo_heap ⊆ h' /\ h' !! 0%nat = Some [3; 1; 2] /\
    h' !! r' = Some l' /\ non_decreasing l'.
Proof.
  split; [reflexivity |].
  destruct (merge_sort_no_mutation demo_heap 0%nat [3; 1; 2] 4
              eq_refl ltac:(simpl; lia))
    as (r' & h' & l' & Hrun & Hsub & Harr & Hr' & Hs & _).
  exists r', h', l'. auto.
Defined.

Lemma scale_theoretical_curve_spec_witness :
  curve_heap !! 0%nat = Some [PyFloat 4%float; PyFloat 16%float] /\
  curve_heap !! 1%nat = Some [PyFloat 1%float; PyFloat 5%float] /\
  (exists out h', _scale_theoretical_curve 0%nat 1%nat curve_heap = Ok out h') /\
  overflow_heap !! 0%nat = Some [PyInt (10 ^ 400); PyInt 1] /\
  overflow_heap !! 1%nat = Some [PyFloat 1%float; PyFloat 2%float] /\
  _scale_theoretical_curve 0%nat 1%nat overflow_heap
  = Raise OverflowError overflow_heap.
Proof.
  split; [reflexivity |]. split; [reflexivity |]. split.
  - destruct (scale_theoretical_curve_spec curve_heap 0%nat 1%nat
                [PyFloat 4%float; PyFloat 16%float]
                [PyFloat 1%float; PyFloat 5%float] eq_refl eq_refl)
      as (_ & _ & Hret & _).
    apply (Hret (PyFloat 16%float) (PyFloat 5%float));
      first [reflexivity | repeat constructor].
  - split; [reflexivity |]. split; [reflexivity |].
    destruct (scale_theoretical_curve_spec overflow_heap 0%nat 1%nat
                [PyInt (10 ^ 400); PyInt 1]
                [PyFloat 1%float; PyFloat 2%float] eq_refl eq_refl)
      as (_ & Hrun & _).
    destruct (Hrun (PyInt 1) (PyFloat 2%float) eq_refl eq_refl eq_refl)
      as [(factor & scaled & out & y & Hdiv & Hall & _) | [Hraise _]];
      [exfalso | exact Hraise].
    vm_compute in Hdiv. injection Hdiv as <-.
    apply Forall2_cons_inv_l in Hall.
    destruct Hall as (y1 & s1 & H1 & _).
    vm_compute in H1. discriminate.
Defined.

Lemma benchmark_preserves_data_witness :
  touches_only_argument (fn_call (insertion_sort_fn 4)) [3; 1; 2] /\
  exists t w',
    benchmark (H := demo_host) (insertion_sort_fn 4) 0%nat 2
      (Build_world (H := demo_host) demo_heap 0 []) = Ok t w' /\
    w_heap w' !! 0%nat = Some [3; 1; 2].
Proof.
  assert (Hlen : (length [3; 1; 2] <= 4)%nat) by (simpl; lia).
  destruct (insertion_sort_touches 4 [3; 1; 2] Hlen) as [Hf Hret].
  split; [exact Hf |].
  destruct (benchmark_preserves_data (H := demo_host) (insertion_sort_fn 4)
              0%nat 2 [3; 1; 2] (Build_world (H := demo_host) demo_heap 0 [])
              Hf eq_refl) as [Hpost Htotal].
  destruct (Htotal Hret) as (t & w' & Hrun).
  exists t, w'. split; [exact Hrun |].
  rewrite Hrun in Hpost. apply Hpost.
Defined.

Lemma datasets_deterministic_witness :
  datasets_from (H := demo_host) (host_seed 1) (-5, 5) [3; 2]
  = Some [[-4; -5; -4]; [5; -2]] /\
  exists results1 w1' tr1 results2 w2' tr2,
    compare_sorting_algorithms (H := demo_host) 4 (Some [3; 2]) (Some 2)
      (Some 1) (Some (-5, 5)) demo_world = Ok results1 w1' /\
    compare_sorting_algorithms (H := demo_host) 4 (Some [3; 2]) (Some 2)
      (Some 1) (Some (-5, 5)) demo_world' = Ok results2 w2' /\
    w_trace w1' = w_trace demo_world ++ tr1 /\
    w_trace w2' = w_trace demo_world' ++ tr2 /\
    trace_datasets tr1 = [[-4; -5; -4]; [5; -2]] /\
    trace_datasets tr2 = [[-4; -5; -4]; [5; -2]].
Proof.
  assert (Hds : datasets_from (H := demo_host) (host_seed 1) (-5, 5) [3; 2]
                = Some [[-4; -5; -4]; [5; -2]]) by (vm_compute; reflexivity).
  assert (Hfuel : Forall (fun size => (Z.to_nat size < 4)%nat) [3; 2])
    by (repeat constructor; simpl; lia).
  split; [exact Hds |].
  destruct (datasets_deterministic (H := demo_host) 4 [3; 2] 2 1 (-5, 5)
              [[-4; -5; -4]; [5; -2]] demo_world demo_world' Hds Hfuel)
    as (r1 & w1' & tr1 & r2 & w2' & tr2 & H1 & H2 & H3 & H4 & H5 & H6 & _).
  exists r1, w1', tr1, r2, w2', tr2. repeat split; assumption.
Defined.


(** * Further properties of the code *)

(** ** [merge] on arbitrary lists *)

Section MergeAnyLists.
Context {A : Type} `{PyOrd A}.
Implicit Types (h : heap A) (l la lb : list A) (r a b : loc).

Lemma merge_list_nil_l lb : merge_list [] lb = lb.
Proof. now destruct lb. Qed.

Lemma merge_list_sublist_l la : forall lb, sublist la (merge_list la lb).
Proof.
  induction la as [| x la IHa]; intros lb.
  - apply sublist_nil_l.
  - induction lb as [| y lb IHb].
    + now rewrite merge_list_nil_r.
    + rewrite merge_list_cons. destruct (le_py x y).
      * apply sublist_skip, IHa.
      * apply sublist_cons, IHb.
Qed.

Lemma merge_list_sublist_r la : forall lb, sublist lb (merge_list la lb).
Proof.
  induction la as [| x la IHa]; intros lb.
  - now rewrite merge_list_nil_l.
  - induction lb as [| y lb IHb].
    + apply sublist_nil_l.
    + rewrite merge_list_cons. destruct (le_py x y).
      * apply sublist_cons, IHa.
      * apply sublist_skip, IHb.
Qed.

(** X1. Whatever its two arguments hold, sorted or not, and also when both
    are the same list, [merge] returns a list that did not exist before and
    changes no other list.  The result is an interleaving of the two
    arguments: a permutation of their concatenation in which the elements of
    each argument keep their order.  With one side empty it is a copy of the
    other side. *)
Theorem merge_interleaves h a b la lb (fuel : nat) :
  h !! a = Some la -> h !! b = Some lb ->
  (length la + length lb < fuel)%nat ->
  exists m out,
    merge fuel a b h = Ok m (<[m := out]> h) /\
    h !! m = None /\
    out ≡ₚ la ++ lb /\
    length out = (length la + length lb)%nat /\
    sublist la out /\ sublist lb out /\
    (la = [] -> out = lb) /\ (lb = [] -> out = la).
Proof.
  intros Ha Hb Hfuel.
  exists (fresh (dom h)), (merge_list la lb).
  split; [now apply merge_run |].
  split; [apply fresh_lookup |].
  split; [apply merge_list_perm |].
  split; [now rewrite (Permutation_length (merge_list_perm la lb)), length_app |].
  split; [apply merge_list_sublist_l |].
  split; [apply merge_list_sublist_r |].
  split.
  - intros ->. apply merge_list_nil_l.
  - intros ->. apply merge_list_nil_r.
Qed.

(** X2. The two sorts lose and duplicate nothing whatever the comparisons
    answer.  For comparisons [<] and [<=] that always return a truth value
    (they do not raise), and with no law assumed of them: no transitivity,
    no totality, no agreement between the two, as with floats and NaN; both
    sorts return, and the list they produce is a permutation of the input,
    of the same length, [merge_sort] still leaving every existing list as it
    was. *)
Theorem sorts_permute_any_comparison h r l (fuel : nat) :
  h !! r = Some l -> (length l < fuel)%nat ->
  (exists l',
     insertion_sort fuel r h = Ok r (<[r := l']> h) /\
     l' ≡ₚ l /\ length l' = length l) /\
  (exists r' h' l',
     merge_sort fuel r h = Ok r' h' /\ h' !! r' = Some l' /\ h ⊆ h' /\
     l' ≡ₚ l /\ length l' = length l).
Proof.
  intros Hr Hfuel. split.
  - destruct (insertion_sort_run fuel r l h Hr) as (l' & Hspec & Hrun); [lia |].
    pose proof (insertion_sorted_perm l l' Hspec) as Hp.
    exists l'. repeat split; auto. now apply Permutation_length.
  - destruct (merge_sort_run fuel r l h Hr Hfuel)
      as (r' & l' & h' & Hspec & Hrun & Hr' & Hsub & _).
    pose proof (merge_sorted_perm l l' Hspec) as Hp.
    exists r', h', l'. repeat split; auto. now apply Permutation_length.
Qed.
End MergeAnyLists.


(** ** The sorted stable permutation is unique *)

Section StableUnique.
Context {A : Type} `{PyOrd A} `{!PyOrdLaws A}.
Implicit Types (h : heap A) (l : list A) (r : loc).

Lemma strongly_sorted_head_le x (l : list A) y :
  StronglySorted le_rel (x :: l) -> y ∈ x :: l -> le_rel x y.
Proof.
  intros Hs Hy. apply StronglySorted_inv in Hs. destruct Hs as [_ Hall].
  apply elem_of_cons in Hy. destruct Hy as [-> | Hy].
  - apply le_rel_refl.
  - rewrite Forall_forall in Hall. auto.
Qed.

Lemma stable_sort_unique (l1 : list A) : forall l2 : list A,
  StronglySorted le_rel l1 -> StronglySorted le_rel l2 ->
  l1 ≡ₚ l2 ->
  (forall k, List.filter (same_key k) l1 = List.filter (same_key k) l2) ->
  l1 = l2.
Proof.
  induction l1 as [| x l1 IH]; intros l2 Hs1 Hs2 Hp Hf.
  - now apply Permutation_nil_l in Hp.
  - destruct l2 as [| y l2].
    { apply Permutation_nil_r in Hp. discriminate. }
    assert (Hxy : le_rel x y).
    { apply (strongly_sorted_head_le x l1); [exact Hs1 |].
      rewrite Hp. now left. }
    assert (Hyx : le_rel y x).
    { apply (strongly_sorted_head_le y l2); [exact Hs2 |].
      rewrite <- Hp. now left. }
    assert (Hxx : same_key x x = true).
    { apply same_key_true. split; apply le_rel_refl. }
    assert (Hsame : same_key x y = true) by (now apply same_key_true).
    pose proof (Hf x) as Hhead. cbn [List.filter] in Hhead.
    rewrite Hxx, Hsame in Hhead. injection Hhead as <- _.
    f_equal. apply IH.
    + now apply StronglySorted_inv in Hs1.
    + now apply StronglySorted_inv in Hs2.
    + now apply Permutation_cons_inv in Hp.
    + intros k. specialize (Hf k). cbn [List.filter] in Hf.
      destruct (same_key k x); [now injection Hf | exact Hf].
Qed.

(** X3. On orderable values the two sorts compute the same list: what
    [insertion_sort] leaves in place of its argument is, element for
    element, what [merge_sort] returns for it. *)
Theorem sorts_agree h r l (fuel : nat) :
  h !! r = Some l -> (length l < fuel)%nat ->
  exists l' r' h',
    insertion_sort fuel r h = Ok r (<[r := l']> h) /\
    merge_sort fuel r h = Ok r' h' /\
    h' !! r' = Some l'.
Proof.
  intros Hr Hfuel.
  destruct (insertion_sort_correct fuel r l h Hr)
    as (l1 & Hrun1 & Hs1 & Hp1 & Hst1); [lia |].
  destruct (merge_sort_correct fuel r l h Hr Hfuel)
    as (r' & h' & l2 & Hrun2 & Hr' & _ & Hs2 & Hp2 & Hst2 & _).
  exists l1, r', h'. split; [exact Hrun1 |]. split; [exact Hrun2 |].
  rewrite Hr'. f_equal. symmetry.
  apply stable_sort_unique;
    try now apply non_decreasing_strong.
  - now rewrite Hp1, Hp2.
  - intros k. now rewrite Hst1, Hst2.
Qed.

(** X4. A list that is already in non-decreasing order is left as it is:
    [insertion_sort] returns with the store exactly as it found it, and
    [merge_sort] returns a list with the same contents. *)
Theorem sorted_input_unchanged h r l (fuel : nat) :
  h !! r = Some l -> (length l < fuel)%nat -> non_decreasing l ->
  insertion_sort fuel r h = Ok r h /\
  exists r' h', merge_sort fuel r h = Ok r' h' /\ h' !! r' = Some l.
Proof.
  intros Hr Hfuel Hsorted. apply non_decreasing_strong in Hsorted. split.
  - destruct (insertion_sort_correct fuel r l h Hr)
      as (l1 & Hrun1 & Hs1 & Hp1 & Hst1); [lia |].
    assert (l1 = l) as ->.
    { apply stable_sort_unique; auto. now apply non_decreasing_strong. }
    now rewrite insert_id in Hrun1.
  - destruct (merge_sort_correct fuel r l h Hr Hfuel)
      as (r' & h' & l2 & Hrun2 & Hr' & _ & Hs2 & Hp2 & Hst2 & _).
    assert (l2 = l) as ->.
    { apply stable_sort_unique; auto. now apply non_decreasing_strong. }
    eauto.
Qed.
End StableUnique.

(** ** How many lists the sorts create *)

Section Allocation.
Context {A : Type} `{PyOrd A}.
Implicit Types (h : heap A) (l : list A) (r : loc).

Lemma size_insert_fresh h l :
  size (<[fresh (dom h) := l]> h) = S (size h).
Proof. apply map_size_insert_None, fresh_lookup. Qed.

Lemma merge_sort_alloc fuel :
  forall r l h,
    h !! r = Some l ->
    (length l < fuel)%nat ->
    exists r' l' h',
      merge_sort fuel r h = Ok r' h' /\
      h' !! r' = Some l' /\ length l' = length l /\ h ⊆ h' /\
      size h' = (size h + 3 * (length l - 1))%nat.
Proof.
  induction fuel as [| fuel IH]; intros r l h Hr Hfuel; [lia |].
  cbn [merge_sort].
  erewrite bind_Ok by (apply py_len_Ok; exact Hr).
  destruct (Z.leb_spec (Z.of_nat (length l)) 1) as [Hshort | Hlong].
  - exists r, l, h. repeat split; auto.
    replace (length l - 1)%nat with 0%nat by lia. lia.
  - pose proof (split_halves_run r l h Hr) as Hsplit. simpl in Hsplit.
    set (lh := fresh (dom h)) in *.
    set (h1 := <[lh := take (length l / 2) l]> h) in *.
    set (rh := fresh (dom h1)) in *.
    set (h2 := <[rh := drop (length l / 2) l]> h1) in *.
    erewrite bind_Ok by exact Hsplit.
    assert (Hhalf : (0 < length l / 2 < length l)%nat).
    { split.
      - apply Nat.div_str_pos. lia.
      - apply Nat.div_lt; lia. }
    assert (Hsize1 : size h1 = S (size h)) by apply size_insert_fresh.
    assert (Hsize2 : size h2 = S (size h1)) by apply size_insert_fresh.
    assert (Hh1 : h ⊆ h1) by apply insert_fresh_subseteq.
    assert (Hh2 : h1 ⊆ h2) by apply insert_fresh_subseteq.
    assert (Hrh : rh <> lh).
    { eapply fresh_ne. subst h1. apply lookup_insert_eq. }
    destruct (IH lh (take (length l / 2) l) h2)
      as (r1 & l1 & h3 & Hrun1 & Hr1 & Hlen1 & Hh3 & Hsize3).
    { subst h2 h1. rewrite lookup_insert_ne by done. apply lookup_insert_eq. }
    { rewrite length_take. lia. }
    destruct (IH rh (drop (length l / 2) l) h3)
      as (r2 & l2 & h4 & Hrun2 & Hr2 & Hlen2 & Hh4 & Hsize4).
    { eapply lookup_weaken; [| exact Hh3]. subst h2. apply lookup_insert_eq. }
    { rewrite length_drop. lia. }
    erewrite bind_Ok by exact Hrun1.
    erewrite bind_Ok by exact Hrun2.
    rewrite length_take in Hlen1, Hsize3. rewrite length_drop in Hlen2, Hsize4.
    assert (Hr1' : h4 !! r1 = Some l1) by (eapply lookup_weaken; eauto).
    rewrite (merge_run _ _ _ l1 l2) by (auto; lia).
    exists (fresh (dom h4)), (merge_list l1 l2),
           (<[fresh (dom h4) := merge_list l1 l2]> h4).
    repeat split.
    + apply lookup_insert_eq.
    + rewrite (Permutation_length (merge_list_perm l1 l2)), length_app. lia.
    + do 4 (etrans; [eassumption |]). apply insert_fresh_subseteq.
    + rewrite size_insert_fresh. lia.
Qed.

(** X5. [merge_sort] creates exactly [3 * (len - 1)] lists when its argument
    has at least one element (two halves and one merged list per split) and
    none when it is empty; [insertion_sort] creates none: the store holds the
    same references after it as before. *)
Theorem sorts_allocation h r l (fuel : nat) :
  h !! r = Some l -> (length l < fuel)%nat ->
  (exists r' h',
     merge_sort fuel r h = Ok r' h' /\
     size h' = (size h + 3 * (length l - 1))%nat) /\
  (exists h',
     insertion_sort fuel r h = Ok r h' /\ dom h' = dom h).
Proof.
  intros Hr Hfuel. split.
  - destruct (merge_sort_alloc fuel r l h Hr Hfuel)
      as (r' & l' & h' & Hrun & _ & _ & _ & Hsize).
    eauto.
  - destruct (insertion_sort_run fuel r l h Hr) as (l' & _ & Hrun); [lia |].
    exists (<[r := l']> h). split; [exact Hrun |].
    apply dom_insert_lookup_L. eauto.
Qed.
End Allocation.

(** ** [benchmark] at its edges *)

Section BenchmarkEdges.
Context `{Host} {A : Type}.
Implicit Types (w : world A) (l : list A) (f : fn_obj A).

(** X6. With a repeat count of zero or below, [benchmark] calls nothing:
    whatever the function and whatever [data] is, it reads the clock twice
    in a row, returns the difference and leaves the store as it was. *)
Theorem benchmark_no_repeats f (data : loc) (repeats : Z) w :
  repeats <= 0 ->
  exists t0 c0 t1 c1,
    host_timer (w_clock w) = (t0, c0) /\
    host_timer c0 = (t1, c1) /\
    benchmark f data repeats w
    = Ok (PrimFloat.sub t1 t0)
         (Build_world (w_heap w) c1 (w_trace w ++ [EvTimer t0; EvTimer t1])).
Proof.
  intros Hrep. unfold benchmark, timeit, bind, read_timer.
  replace (Z.to_nat repeats) with 0%nat by lia.
  destruct (host_timer (w_clock w)) as [t0 c0] eqn:E0.
  cbn [repeat_stmt w_clock w_heap w_trace]. unfold ret.
  cbn [w_clock w_heap w_trace].
  destruct (host_timer c0) as [t1 c1] eqn:E1.
  exists t0, c0, t1, c1. split; [reflexivity |]. split; [exact E1 |].
  now rewrite <- app_assoc.
Qed.

(** X7. [benchmark] does not catch what the function raises.  When the
    function raises [e] on lists holding the contents of [data], a benchmark
    with a positive repeat count raises [e] at the first call: the trace
    shows one clock reading and one call, on a copy of [data], and nothing
    after them. *)
Theorem benchmark_propagates f (data : loc) (repeats : Z) l (e : exn) w :
  w_heap w !! data = Some l ->
  0 < repeats ->
  (forall (h : heap A) c,
      h !! c = Some l -> exists h', fn_call f c h = Raise e h') ->
  exists w' t0 c,
    benchmark f data repeats w = Raise e w' /\
    w_heap w !! c = None /\
    w_trace w' = w_trace w ++ [EvTimer t0; EvCall (fn_name f) c l].
Proof.
  intros Hdata Hrep Hraise. unfold benchmark, timeit, bind, read_timer.
  destruct (Z.to_nat repeats) as [| n] eqn:En; [lia |].
  destruct (host_timer (w_clock w)) as [t0 c0].
  cbn [repeat_stmt]. unfold bind, benchmark_stmt, bind, lift at 1, py_copy.
  cbn [w_heap]. rewrite Hdata. unfold py_new, set_heap.
  unfold call, bind, log_event, lift. cbn [w_heap w_clock w_trace].
  rewrite lookup_insert_eq. cbn [default from_option].
  destruct (Hraise (<[fresh (dom (w_heap w)) := l]> (w_heap w))
              (fresh (dom (w_heap w)))) as (h' & Hcall).
  { apply lookup_insert_eq. }
  rewrite Hcall. unfold set_heap. cbn [w_heap w_clock w_trace].
  eexists _, t0, (fresh (dom (w_heap w))). split; [reflexivity |].
  split; [apply fresh_lookup |].
  cbn [w_trace]. now rewrite <- app_assoc.
Qed.
End BenchmarkEdges.

(** ** [_scale_theoretical_curve] and its reference argument *)

(** X9. [_scale_theoretical_curve] looks at nothing of the reference list
    but whether it is empty and its last element: two reference lists with
    the same last element, of whatever lengths, give the same outcome.  In
    particular the two sequences are never required to have equal
    lengths. *)
Theorem scale_uses_last_reference (h : heap pynum)
    (values ref1 ref2 : loc) (lr1 lr2 : list pynum) :
  h !! ref1 = Some lr1 -> h !! ref2 = Some lr2 ->
  last lr1 = last lr2 ->
  _scale_theoretical_curve values ref1 h
  = _scale_theoretical_curve values ref2 h.
Proof.
  intros H1 H2 Hlast. unfold _scale_theoretical_curve, bind.
  destruct (py_len values h) as [nv h0 | |] eqn:Elen; try reflexivity.
  assert (h0 = h) as ->.
  { unfold py_len in Elen. destruct (h !! values); now inversion Elen. }
  destruct (nv =? 0); [reflexivity |].
  rewrite (py_len_Ok _ _ _ H1), (py_len_Ok _ _ _ H2).
  destruct lr1 as [| x1 lr1'], lr2 as [| x2 lr2']; try reflexivity.
  - symmetry in Hlast. apply last_None in Hlast. discriminate.
  - apply last_None in Hlast. discriminate.
  - destruct (last (x1 :: lr1')) as [r |] eqn:E1.
    2:{ apply last_None in E1. discriminate. }
    symmetry in Hlast.
    cbn [length].
    destruct (Z.eqb_spec (Z.of_nat (S (length lr1'))) 0); [lia |].
    destruct (Z.eqb_spec (Z.of_nat (S (length lr2'))) 0); [lia |].
    destruct (py_getitem values (-1) h) as [v h0 | |] eqn:Ev; try reflexivity.
    assert (h0 = h) as ->.
    { unfold py_getitem in Ev. destruct (h !! values) as [lv |]; [| now inversion Ev].
      destruct (index_of (length lv) (-1) ≫= (lv !!.)); now inversion Ev. }
    destruct (py_is_zero v); [reflexivity |].
    now rewrite (py_getitem_last _ _ _ _ H1 E1), (py_getitem_last _ _ _ _ H2 Hlast).
Qed.

(** ** The driver at its edges *)

Section DriverEdges.
Context `{Host}.
Implicit Types (w : world Z) (d : list Z) (rng : host_rng).

Lemma datasets_from_nonpositive value_range list_sizes : forall rng,
  Forall (fun size => size <= 0) list_sizes ->
  datasets_from rng value_range list_sizes
  = Some (replicate (length list_sizes) []).
Proof.
  induction list_sizes as [| size sizes IH]; intros rng Hall; [reflexivity |].
  apply Forall_cons in Hall. destruct Hall as [Hsize Hall].
  cbn [datasets_from length replicate].
  replace (Z.to_nat size) with 0%nat by lia.
  cbn [draw_list]. now rewrite IH.
Qed.

(** X10. A size of zero or below is not an error: the comprehension over
    [range(size)] is empty, so the dataset is the empty list and the
    generator is not asked for anything.  With only such sizes the driver
    returns one entry per size, for any value range, valid or not, and any
    generator. *)
Theorem nonpositive_sizes_give_empty_datasets (fuel : nat)
    (list_sizes : list Z) (repeats seed : Z) (value_range : Z * Z) w :
  Forall (fun size => size <= 0) list_sizes ->
  (0 < fuel)%nat ->
  exists results w' tr,
    compare_sorting_algorithms fuel (Some list_sizes) (Some repeats)
      (Some seed) (Some value_range) w = Ok results w' /\
    length results = length list_sizes /\
    w_trace w' = w_trace w ++ tr /\
    trace_datasets tr = replicate (length list_sizes) [].
Proof.
  intros Hall Hfuel.
  destruct (compare_run fuel list_sizes repeats seed value_range
              (replicate (length list_sizes) []) w)
    as (results & w' & tr & Hrun & _ & Htr & Hrt).
  { now apply datasets_from_nonpositive. }
  { eapply Forall_impl; [exact Hall |]. intros size Hsize. simpl in *. lia. }
  exists results, w', tr. repeat split; auto.
  - symmetry. eapply Forall2_length, run_trace_entries, Hrt.
  - eapply trace_datasets_run, Hrt.
Qed.

(** X11. When the host's [randint] rejects the value range and the first
    size is positive, the driver raises [ValueError] at the first draw:
    nothing has been created, run or recorded, the world is as it was. *)
Theorem rejected_range_raises (fuel : nat) (size : Z) (list_sizes : list Z)
    (repeats seed low high : Z) w :
  0 < size ->
  host_randint low high (host_seed seed) = None ->
  compare_sorting_algorithms fuel (Some (size :: list_sizes)) (Some repeats)
    (Some seed) (Some (low, high)) w
  = Raise ValueError w.
Proof.
  intros Hsize Hnone. unfold compare_sorting_algorithms.
  cbn [default from_option compare_loop]. unfold bind, compare_one, bind.
  destruct (Z.to_nat size) as [| n] eqn:En; [lia |].
  cbn [draw]. unfold id. cbn [fst snd]. now rewrite Hnone.
Qed.

Lemma trace_dataset_objects_app tr1 tr2 :
  trace_dataset_objects (tr1 ++ tr2)
  = trace_dataset_objects tr1 ++ trace_dataset_objects tr2.
Proof.
  induction tr1 as [| [base d | name c d | t] tr1 IH]; simpl;
    [reflexivity | | |].
  - now rewrite IH.
  - exact IH.
  - exact IH.
Qed.

Lemma trace_dataset_objects_timed name n base d calls t0 t1 :
  calls_on_copies name n base d calls ->
  trace_dataset_objects (timed t0 calls t1) = [].
Proof.
  intros [_ Hall]. unfold timed. cbn [trace_dataset_objects].
  rewrite trace_dataset_objects_app. cbn [trace_dataset_objects].
  rewrite app_nil_r.
  induction Hall as [| ev calls (c & -> & _) _ IH]; [reflexivity | exact IH].
Qed.

(** One iteration of the loop keeps the dataset it generated. *)
Lemma compare_one_keeps_dataset fuel repeats value_range size rng d rng' w :
  draw_list (Z.to_nat size) value_range rng = Some (d, rng') ->
  (Z.to_nat size < fuel)%nat ->
  exists e w' tr base,
    compare_one fuel repeats value_range size rng w = Ok (e, rng') w' /\
    w_heap w ⊆ w_heap w' /\
    w_trace w' = w_trace w ++ tr /\
    trace_dataset_objects tr = [(base, d)] /\
    w_heap w !! base = None /\
    w_heap w' !! base = Some d.
Proof.
  intros Hd Hfuel.
  pose proof (draw_list_length _ _ _ _ _ Hd) as Hlen.
  unfold compare_one.
  erewrite bind_Ok by (rewrite draw_run, Hd; reflexivity).
  cbn [fst snd].
  set (base := fresh (dom (w_heap w))).
  set (w0 := Build_world (<[base := d]> (w_heap w)) (w_clock w)
                         (w_trace w ++ [EvDataset base d])).
  erewrite bind_Ok by reflexivity. fold base.
  erewrite bind_Ok by reflexivity.
  assert (Hw0 : w_heap w0 !! base = Some d) by apply lookup_insert_eq.
  destruct (insertion_sort_touches fuel d ltac:(lia)) as [Hf1 Hr1].
  destruct (merge_sort_touches fuel d ltac:(lia)) as [Hf2 Hr2].
  destruct (python_sort_touches d) as [Hf3 Hr3].
  destruct (python_sorted_touches d) as [Hf4 Hr4].
  destruct (benchmark_calls (insertion_sort_fn fuel) base d repeats w0
              Hf1 Hr1 Hw0) as (a1 & b1 & w1 & c1 & Hrun1 & Hs1 & Ht1 & Hc1).
  assert (Hw1 : w_heap w1 !! base = Some d) by (eapply lookup_weaken; eauto).
  destruct (benchmark_calls (merge_sort_fn fuel) base d repeats w1
              Hf2 Hr2 Hw1) as (a2 & b2 & w2 & c2 & Hrun2 & Hs2 & Ht2 & Hc2).
  assert (Hw2 : w_heap w2 !! base = Some d) by (eapply lookup_weaken; eauto).
  destruct (benchmark_calls python_sort_fn base d repeats w2
              Hf3 Hr3 Hw2) as (a3 & b3 & w3 & c3 & Hrun3 & Hs3 & Ht3 & Hc3).
  assert (Hw3 : w_heap w3 !! base = Some d) by (eapply lookup_weaken; eauto).
  destruct (benchmark_calls python_sorted_fn base d repeats w3
              Hf4 Hr4 Hw3) as (a4 & b4 & w4 & c4 & Hrun4 & Hs4 & Ht4 & Hc4).
  assert (Hw4 : w_heap w4 !! base = Some d) by (eapply lookup_weaken; eauto).
  erewrite bind_Ok by exact Hrun1.
  erewrite bind_Ok by exact Hrun2.
  erewrite bind_Ok by exact Hrun3.
  erewrite bind_Ok by exact Hrun4.
  eexists _, w4,
    (EvDataset base d ::
       timed a1 c1 b1 ++ timed a2 c2 b2 ++ timed a3 c3 b3 ++ timed a4 c4 b4),
    base.
  split; [reflexivity |]. split; [| split; [| split; [| split]]].
  - transitivity (w_heap w0); [apply insert_fresh_subseteq |].
    transitivity (w_heap w1); [exact Hs1 |].
    transitivity (w_heap w2); [exact Hs2 |].
    transitivity (w_heap w3); [exact Hs3 | exact Hs4].
  - rewrite Ht4, Ht3, Ht2, Ht1. subst w0. cbn [w_trace].
    rewrite <- !app_assoc. reflexivity.
  - cbn [trace_dataset_objects]. rewrite !trace_dataset_objects_app.
    now rewrite (trace_dataset_objects_timed _ _ _ _ _ _ _ Hc1),
      (trace_dataset_objects_timed _ _ _ _ _ _ _ Hc2),
      (trace_dataset_objects_timed _ _ _ _ _ _ _ Hc3),
      (trace_dataset_objects_timed _ _ _ _ _ _ _ Hc4).
  - apply fresh_lookup.
  - exact Hw4.
Qed.

Lemma compare_loop_keeps_datasets fuel repeats value_range list_sizes :
  forall rng ds w,
    datasets_from rng value_range list_sizes = Some ds ->
    Forall (fun size => (Z.to_nat size < fuel)%nat) list_sizes ->
    exists results w' tr,
      compare_loop fuel repeats value_range list_sizes rng w = Ok results w' /\
      w_heap w ⊆ w_heap w' /\
      w_trace w' = w_trace w ++ tr /\
      (trace_dataset_objects tr).*2 = ds /\
      Forall (fun bd => w_heap w !! bd.1 = None /\
                        w_heap w' !! bd.1 = Some bd.2)
             (trace_dataset_objects tr).
Proof.
  induction list_sizes as [| size sizes IH]; intros rng ds w Hds Hfuel.
  - simpl in Hds. injection Hds as <-.
    exists [], w, []. cbn [trace_dataset_objects].
    split; [reflexivity |]. split; [reflexivity |].
    split; [now rewrite app_nil_r |]. split; [reflexivity | constructor].
  - cbn [datasets_from] in Hds.
    destruct (draw_list (Z.to_nat size) value_range rng) as [[d rng'] |] eqn:Hd;
      [| discriminate].
    destruct (datasets_from rng' value_range sizes) as [ds' |] eqn:Hds';
      [| discriminate].
    injection Hds as <-.
    apply Forall_cons in Hfuel. destruct Hfuel as [Hsize Hfuel].
    destruct (compare_one_keeps_dataset fuel repeats value_range size rng d
                rng' w Hd Hsize)
      as (e & w1 & tr1 & base & Hrun1 & Hs1 & Ht1 & Hobj1 & Hnew1 & Hkept1).
    destruct (IH rng' ds' w1 Hds' Hfuel)
      as (results & w2 & tr2 & Hrun2 & Hs2 & Ht2 & Hobj2 & Hkept2).
    exists (e :: results), w2, (tr1 ++ tr2).
    split; [| split; [| split; [| split]]].
    + cbn [compare_loop]. erewrite bind_Ok by exact Hrun1. cbn [fst snd].
      now erewrite bind_Ok by exact Hrun2.
    + now transitivity (w_heap w1).
    + now rewrite Ht2, Ht1, app_assoc.
    + rewrite trace_dataset_objects_app, Hobj1, fmap_app, Hobj2. reflexivity.
    + rewrite trace_dataset_objects_app, Hobj1. apply Forall_app. split.
      * repeat constructor; simpl; [exact Hnew1 |].
        eapply lookup_weaken; eauto.
      * eapply Forall_impl; [exact Hkept2 |]. intros [b0 d0] [Hn Hk]. simpl in *.
        split; [| exact Hk]. eapply lookup_weaken_None; eauto.
Qed.

(** X12. No benchmark damages a dataset.  When the driver returns, every
    dataset it generated is a list that did not exist before the run and
    that still holds, in the final store, exactly the values that were
    drawn for it, although [insertion_sort] and [python_sort] sort in
    place. *)
Theorem datasets_survive_the_run (fuel : nat) (list_sizes : list Z)
    (repeats seed : Z) (value_range : Z * Z) (ds : list (list Z)) w :
  datasets_from (host_seed seed) value_range list_sizes = Some ds ->
  Forall (fun size => (Z.to_nat size < fuel)%nat) list_sizes ->
  exists results w' tr,
    compare_sorting_algorithms fuel (Some list_sizes) (Some repeats)
      (Some seed) (Some value_range) w = Ok results w' /\
    w_trace w' = w_trace w ++ tr /\
    (trace_dataset_objects tr).*2 = ds /\
    Forall (fun bd => w_heap w !! bd.1 = None /\
                      w_heap w' !! bd.1 = Some bd.2)
           (trace_dataset_objects tr).
Proof.
  intros Hds Hfuel. unfold compare_sorting_algorithms.
  cbn [default from_option].
  destruct (compare_loop_keeps_datasets fuel repeats value_range list_sizes
              (host_seed seed) ds w Hds Hfuel)
    as (results & w' & tr & Hrun & _ & Htr & Hobj & Hkept).
  exists results, w', tr. auto.
Qed.
End DriverEdges.

(** ** The further properties at concrete inputs *)

Lemma merge_interleaves_witness :
  demo_heap !! 0%nat = Some [3; 1; 2] /\
  exists m out,
    merge 7 0%nat 0%nat demo_heap = Ok m (<[m := out]> demo_heap) /\
    out ≡ₚ [3; 1; 2] ++ [3; 1; 2] /\ sublist [3; 1; 2] out.
Proof.
  split; [reflexivity |].
  destruct (merge_interleaves demo_heap 0%nat 0%nat [3; 1; 2] [3; 1; 2] 7
              eq_refl eq_refl ltac:(simpl; lia))
    as (m & out & Hrun & _ & Hp & _ & Hsub & _).
  exists m, out. auto.
Defined.

Lemma sorts_permute_any_comparison_witness :
  nan_heap !! 0%nat = Some [2%float; PrimFloat.nan; 1%float] /\
  (exists l',
     insertion_sort 4 0%nat nan_heap = Ok 0%nat (<[0%nat := l']> nan_heap) /\
     l' ≡ₚ [2%float; PrimFloat.nan; 1%float]) /\
  (exists r' h' l',
     merge_sort 4 0%nat nan_heap = Ok r' h' /\ h' !! r' = Some l' /\
     l' ≡ₚ [2%float; PrimFloat.nan; 1%float]).
Proof.
  split; [reflexivity |].
  destruct (sorts_permute_any_comparison nan_heap 0%nat
              [2%float; PrimFloat.nan; 1%float] 4 eq_refl ltac:(simpl; lia))
    as [(l1 & Hrun1 & Hp1 & _) (r' & h' & l2 & Hrun2 & Hr' & _ & Hp2 & _)].
  split; [exists l1; auto | exists r', h', l2; auto].
Defined.

Lemma sorts_agree_witness :
  demo_heap !! 0%nat = Some [3; 1; 2] /\
  exists l' r' h',
    insertion_sort 4 0%nat demo_heap = Ok 0%nat (<[0%nat := l']> demo_heap) /\
    merge_sort 4 0%nat demo_heap = Ok r' h' /\
    h' !! r' = Some l'.
Proof.
  split; [reflexivity |].
  apply (sorts_agree demo_heap 0%nat [3; 1; 2] 4); [reflexivity | simpl; lia].
Defined.

Lemma sorted_input_unchanged_witness :
  sorted_heap !! 0%nat = Some [1; 2; 4] /\ non_decreasing [1; 2; 4] /\
  insertion_sort 4 0%nat sorted_heap = Ok 0%nat sorted_heap /\
  exists r' h',
    merge_sort 4 0%nat sorted_heap = Ok r' h' /\ h' !! r' = Some [1; 2; 4].
Proof.
  assert (Hs : non_decreasing [1; 2; 4]) by (repeat constructor).
  split; [reflexivity |]. split; [exact Hs |].
  apply (sorted_input_unchanged sorted_heap 0%nat [1; 2; 4] 4);
    [reflexivity | simpl; lia | exact Hs].
Defined.

Lemma sorts_allocation_witness :
  demo_heap !! 0%nat = Some [3; 1; 2] /\
  (exists r' h',
     merge_sort 4 0%nat demo_heap = Ok r' h' /\
     size h' = (size demo_heap + 3 * (length [3; 1; 2] - 1))%nat) /\
  (exists h',
     insertion_sort 4 0%nat demo_heap = Ok 0%nat h' /\ dom h' = dom demo_heap).
Proof.
  split; [reflexivity |].
  apply (sorts_allocation demo_heap 0%nat [3; 1; 2] 4);
    [reflexivity | simpl; lia].
Defined.

Lemma benchmark_no_repeats_witness :
  -3 <= 0 /\
  exists t0 c0 t1 c1,
    host_timer (Host := demo_host) (w_clock demo_world) = (t0, c0) /\
    host_timer (Host := demo_host) c0 = (t1, c1) /\
    benchmark (H := demo_host) eleventh_fn 99%nat (-3) demo_world
    = Ok (PrimFloat.sub t1 t0)
         (Build_world (H := demo_host) (w_heap demo_world) c1
            (w_trace demo_world ++ [EvTimer t0; EvTimer t1])).
Proof.
  split; [lia |].
  apply (benchmark_no_repeats (H := demo_host) eleventh_fn 99%nat (-3)
           demo_world).
  lia.
Defined.

Lemma eleventh_fn_raises (h : heap Z) (c : loc) :
  h !! c = Some [3; 1; 2] ->
  exists h', fn_call eleventh_fn c h = Raise IndexError h'.
Proof.
  intros Hc. exists h. simpl. unfold bind, py_getitem. now rewrite Hc.
Qed.

Lemma benchmark_propagates_witness :
  w_heap (Build_world (H := demo_host) demo_heap 0 []) !! 0%nat
  = Some [3; 1; 2] /\ 0 < 5 /\
  exists w' t0 c,
    benchmark (H := demo_host) eleventh_fn 0%nat 5
      (Build_world (H := demo_host) demo_heap 0 []) = Raise IndexError w' /\
    demo_heap !! c = None /\
    w_trace w' = [EvTimer t0; EvCall "eleventh" c [3; 1; 2]].
Proof.
  split; [reflexivity |]. split; [lia |].
  apply (benchmark_propagates (H := demo_host) eleventh_fn 0%nat 5 [3; 1; 2]
           IndexError (Build_world (H := demo_host) demo_heap 0 []));
    [reflexivity | lia | exact eleventh_fn_raises].
Defined.

Lemma scale_uses_last_reference_witness :
  two_reference_heap !! 1%nat = Some [PyFloat 5%float] /\
  two_reference_heap !! 2%nat
  = Some [PyFloat 1%float; PyFloat 2%float; PyFloat 5%float] /\
  _scale_theoretical_curve 0%nat 1%nat two_reference_heap
  = _scale_theoretical_curve 0%nat 2%nat two_reference_heap.
Proof.
  split; [reflexivity |]. split; [reflexivity |].
  apply (scale_uses_last_reference two_reference_heap 0%nat 1%nat 2%nat
           [PyFloat 5%float]
           [PyFloat 1%float; PyFloat 2%float; PyFloat 5%float]);
    reflexivity.
Defined.

Lemma nonpositive_sizes_give_empty_datasets_witness :
  Forall (fun size => size <= 0) [0; -2] /\
  exists results w' tr,
    compare_sorting_algorithms (H := demo_host) 1 (Some [0; -2]) (Some 2)
      (Some 1) (Some (5, -5)) demo_world = Ok results w' /\
    length results = 2%nat /\
    w_trace w' = w_trace demo_world ++ tr /\
    trace_datasets tr = [[]; []].
Proof.
  assert (Hall : Forall (fun size => size <= 0) [0; -2])
    by (repeat constructor; lia).
  split; [exact Hall |].
  apply (nonpositive_sizes_give_empty_datasets (H := demo_host) 1 [0; -2] 2 1
           (5, -5) demo_world Hall).
  lia.
Defined.

Lemma rejected_range_raises_witness :
  0 < 3 /\
  host_randint (Host := demo_host) 5 (-5) (host_seed (Host := demo_host) 1)
  = None /\
  compare_sorting_algorithms (H := demo_host) 4 (Some [3; 2]) (Some 2)
    (Some 1) (Some (5, -5)) demo_world
  = Raise ValueError demo_world.
Proof.
  split; [lia |]. split; [reflexivity |].
  apply (rejected_range_raises (H := demo_host) 4 3 [2] 2 1 5 (-5) demo_world);
    [lia | reflexivity].
Defined.

Lemma datasets_survive_the_run_witness :
  datasets_from (H := demo_host) (host_seed 1) (-5, 5) [3; 2]
  = Some [[-4; -5; -4]; [5; -2]] /\
  exists results w' tr,
    compare_sorting_algorithms (H := demo_host) 4 (Some [3; 2]) (Some 2)
      (Some 1) (Some (-5, 5)) demo_world = Ok results w' /\
    w_trace w' = w_trace demo_world ++ tr /\
    (trace_dataset_objects tr).*2 = [[-4; -5; -4]; [5; -2]] /\
    Forall (fun bd => w_heap demo_world !! bd.1 = None /\
                      w_heap w' !! bd.1 = Some bd.2)
           (trace_dataset_objects tr).
Proof.
  assert (Hds : datasets_from (H := demo_host) (host_seed 1) (-5, 5) [3; 2]
                = Some [[-4; -5; -4]; [5; -2]]) by (vm_compute; reflexivity).
  assert (Hfuel : Forall (fun size => (Z.to_nat size < 4)%nat) [3; 2])
    by (repeat constructor; simpl; lia).
  split; [exact Hds |].
  apply (datasets_survive_the_run (H := demo_host) 4 [3; 2] 2 1 (-5, 5)
           [[-4; -5; -4]; [5; -2]] demo_world Hds Hfuel).
Defined.

